(** * MiniGit: autocomplete trie, search catalog and snapshot store

    A shallow embedding of [autocomplete.c], [search_engine.c] and
    [minigit.c], followed by the properties of the specification that
    concern them.

    Conventions of the embedding.
    - A C string is the list of its characters before the terminating NUL
      ([cstring]); [strncpy (buf, s, n)] followed by a forced terminator
      keeps the first [n] characters ([take n s]).
    - [int] counters that the code never bounds ([++repo.commit_count],
      [g_total_queries++], [frequency++]) wrap at 32 bits ([wrap_int]).
      Counters that a loop guard or a buffer size bounds are plain numbers.
    - [float] and [double] values are elements of an arithmetic interface
      ([FloatOps]); the order and sign laws the proofs rely on are collected
      in [FloatLaws].
    - The C library's [qsort] is a parameter ([Qsort]) constrained by its
      contract only: the result is a permutation, sorted for the comparator.
    - The clock, the time of day and the file system are inputs of the
      operations that read them. *)

From Stdlib Require Import ZArith QArith Ascii String.
From Stdlib Require Import Floats.SpecFloat.
From stdpp Require Import base tactics option list numbers sorting strings pretty.

Local Open Scope Z_scope.

(** ** C integers and characters *)

Definition INT_MAX : Z := 2147483647.
Definition INT_MIN : Z := -2147483648.

(** Two's complement wrap-around of a 32-bit [int]. *)
Definition wrap_int (z : Z) : Z := (z + 2147483648) mod 4294967296 - 2147483648.

Abbreviation cstring := (list ascii).

(** Reads a literal: [c_str "abc"] is the C string "abc". *)
Definition c_str (s : string) : cstring := list_ascii_of_string s.

(** The code of a character, as [(unsigned char)c]. *)
Definition char_code (c : ascii) : nat := nat_of_ascii c.

Definition is_upper (c : ascii) : bool :=
  (65 <=? char_code c)%nat && (char_code c <=? 90)%nat.
Definition is_lower (c : ascii) : bool :=
  (97 <=? char_code c)%nat && (char_code c <=? 122)%nat.
Definition is_digit (c : ascii) : bool :=
  (48 <=? char_code c)%nat && (char_code c <=? 57)%nat.

(** [tolower] and [isalnum] of <ctype.h> in the "C" locale: only the ASCII
    letters have a case, only ASCII letters and digits are alphanumeric. *)
Definition tolower (c : ascii) : ascii :=
  if is_upper c then ascii_of_nat (char_code c + 32) else c.
Definition isalnum (c : ascii) : bool :=
  is_upper c || is_lower c || is_digit c.

(** [strncpy (dst, src, n); dst[n] = 0]. *)
Definition strncpy (src : cstring) (n : nat) : cstring := take n src.
#[global] Arguments strncpy : simpl never.

(** ** Floating point interface *)

Class FloatOps := {
  float : Type;
  f_of_Z : Z → float;                  (* (float)n for an int n *)
  f_lit : Z → Z → float;               (* the literal of value n/d *)
  fadd : float → float → float;
  fmul : float → float → float;
  fdiv : float → float → float;
  fltb : float → float → bool;         (* a < b *)
}.

Section FloatDerived.
Context `{FloatOps}.

Definition fzero : float := f_of_Z 0.
Definition fone : float := f_of_Z 1.
(** [a > b] and [a <= b] (no NaN arises in the code modelled here). *)
Definition fgtb (a b : float) : bool := fltb b a.
Definition fleb (a b : float) : bool := negb (fltb b a).
End FloatDerived.

(** The laws of the arithmetic used below: [<] is a strict weak order,
    conversions of non-negative integers, sums, products and quotients of
    non-negative values are non-negative, and a quotient [a / b] with
    [0 <= a <= b] and [0 < b] is at most one. IEEE-754 arithmetic with
    round-to-nearest has them on finite values; so have the rationals. *)
Class FloatLaws (F : FloatOps) := {
  fltb_irrefl : ∀ a, fltb a a = false;
  fltb_trans : ∀ a b c, fltb a b = true → fltb b c = true → fltb a c = true;
  fltb_negtrans : ∀ a b c, fltb a c = true → fltb a b = true ∨ fltb b c = true;
  f_of_Z_nonneg : ∀ n, 0 ≤ n → fleb fzero (f_of_Z n) = true;
  f_of_Z_pos : ∀ n, 0 < n → fltb fzero (f_of_Z n) = true;
  f_lit_pos : ∀ n d, 0 < n → 0 < d → fltb fzero (f_lit n d) = true;
  fadd_nonneg : ∀ a b, fleb fzero a = true → fleb fzero b = true →
                       fleb fzero (fadd a b) = true;
  fmul_nonneg : ∀ a b, fleb fzero a = true → fleb fzero b = true →
                       fleb fzero (fmul a b) = true;
  fdiv_nonneg : ∀ a b, fleb fzero a = true → fltb fzero b = true →
                       fleb fzero (fdiv a b) = true;
  fdiv_le_one : ∀ a b, fleb fzero a = true → fleb a b = true →
                       fltb fzero b = true → fleb (fdiv a b) fone = true;
}.

(** ** The C library's [qsort] *)

(** [qsort (base, n, size, cmp)] on the [n] elements of [base]. The C
    standard promises a permutation that is sorted for [cmp] whenever [cmp]
    is a consistent ordering, and leaves the order of elements that compare
    equal unspecified. *)
Definition cmp_total {A} (cmp : A → A → Z) : Prop :=
  ∀ a b, cmp a b ≤ 0 ∨ cmp b a ≤ 0.
Definition cmp_trans {A} (cmp : A → A → Z) : Prop :=
  ∀ a b c, cmp a b ≤ 0 → cmp b c ≤ 0 → cmp a c ≤ 0.

Class Qsort := {
  qsort : ∀ {A : Type}, (A → A → Z) → list A → list A;
  qsort_perm : ∀ A (cmp : A → A → Z) l, qsort cmp l ≡ₚ l;
  qsort_sorted : ∀ A (cmp : A → A → Z) l,
    cmp_total cmp → cmp_trans cmp →
    StronglySorted (λ a b, cmp a b ≤ 0) (qsort cmp l);
}.

(** ** Constants of the headers

    [autocomplete.h] and [search_engine.h] are not part of the sources at
    hand; the buffer sizes they define and the platform's [CLOCKS_PER_SEC]
    are parameters of the development. *)
Class Limits := {
  MAX_QUERY_LENGTH : nat;
  MAX_SUGGESTION_LENGTH : nat;
  MAX_TITLE_LENGTH : nat;
  MAX_DESCRIPTION_LENGTH : nat;
  MAX_SEARCH_RESULTS : Z;
  MAX_AUTOCOMPLETE_SUGGESTIONS : Z;
  CLOCKS_PER_SEC : Z;
}.

(** ** autocomplete.c *)

Section Autocomplete.
Context `{FloatOps} `{Qsort} `{Limits}.

(** [trie_node_t]: a table of 128 child pointers (NULL is [None]) and the
    record of the suggestion that ends at the node. *)
#[local] Unset Elimination Schemes.
Inductive trie_node_t := TrieNode {
  children : list (option trie_node_t);
  is_end_of_word : bool;
  suggestion : option cstring;
  score : float;
  frequency : Z;
  last_used : Z;
}.
#[local] Set Elimination Schemes.

Record autocomplete_result_t := AutocompleteResult {
  res_suggestion : cstring;
  res_score : float;
  res_frequency : Z;
  res_last_used : Z;
  res_is_trending : bool;
}.

Inductive autocomplete_source_t :=
| AC_SOURCE_DOCUMENT_TITLES
| AC_SOURCE_OTHER.

(** [g_autocomplete_ctx] once [init_autocomplete_system] has run: the root
    is allocated. *)
Record autocomplete_context_t := AutocompleteContext {
  root : trie_node_t;
  total_suggestions : Z;
}.

(** [calloc (1, sizeof (trie_node_t))]. *)
Definition create_trie_node : trie_node_t :=
  TrieNode (replicate 128 None) false None fzero 0 0.

Definition init_autocomplete_system : autocomplete_context_t :=
  AutocompleteContext create_trie_node 0.

Definition calculate_suggestion_score
    (suggestion : cstring) (source : autocomplete_source_t) : float :=
  match source with
  | AC_SOURCE_DOCUMENT_TITLES => f_lit 6 10
  | _ => f_lit 5 10
  end.

(** [children[c]] as a pointer: NULL when the slot is empty. *)
Definition child (node : trie_node_t) (c : nat) : option trie_node_t :=
  match children node !! c with
  | Some (Some n) => Some n
  | _ => None
  end.

(** The loop of [insert_suggestion_into_trie], from the node [current]
    with the characters [rest] still to read; the result is the subtree
    of [current] after the whole insertion. *)
Fixpoint insert_from (current : trie_node_t) (rest : cstring)
    (text : cstring) (new_score : float) (now : Z) : trie_node_t :=
  match rest with
  | [] =>
      TrieNode (children current) true (Some text) new_score
               (wrap_int (frequency current + 1)) now
  | ch :: rest' =>
      let c := tolower ch in
      if negb (isalnum c) then insert_from current rest' text new_score now
      else
        let next := default create_trie_node (child current (char_code c)) in
        TrieNode
          (<[char_code c := Some (insert_from next rest' text new_score now)]>
             (children current))
          (is_end_of_word current) (suggestion current) (score current)
          (frequency current) (last_used current)
  end.

Definition insert_suggestion_into_trie
    (text : cstring) (new_score : float) (now : Z)
    (r : trie_node_t) : trie_node_t :=
  insert_from r text text new_score now.

(** Returns the status and the new context; [now] is [time (NULL)]. *)
Definition add_autocomplete_suggestion
    (text : cstring) (given : float) (source : autocomplete_source_t)
    (now : Z) (ctx : autocomplete_context_t) : Z * autocomplete_context_t :=
  if (length text =? 0)%nat then (-1, ctx)
  else
    let final_score :=
      if fgtb given fzero then given
      else calculate_suggestion_score text source in
    (0, AutocompleteContext
          (insert_suggestion_into_trie text final_score now (root ctx))
          (wrap_int (total_suggestions ctx + 1))).

Definition result_of_node (text : cstring) (node : trie_node_t)
    : autocomplete_result_t :=
  AutocompleteResult (strncpy text (MAX_SUGGESTION_LENGTH - 1))
                     (score node) (frequency node) (last_used node) false.

(** [collect_suggestions_from_trie]: [acc] is the filled part of the
    output array, whose length is [*count]. *)
Fixpoint collect_suggestions_from_trie (node : trie_node_t)
    (max_suggestions : Z) (acc : list autocomplete_result_t)
    : list autocomplete_result_t :=
  match node with
  | TrieNode cs e s _ _ _ =>
      if max_suggestions <=? Z.of_nat (length acc) then acc
      else
        let acc1 :=
          match e, s with
          | true, Some text => acc ++ [result_of_node text node]
          | _, _ => acc
          end in
        (fix children_loop (cs : list (option trie_node_t))
             (acc : list autocomplete_result_t) :=
           match cs with
           | [] => acc
           | c :: cs' =>
               if Z.of_nat (length acc) <? max_suggestions then
                 children_loop cs'
                   match c with
                   | Some n => collect_suggestions_from_trie n max_suggestions acc
                   | None => acc
                   end
               else acc
           end) cs acc1
  end.

Definition compare_suggestions (a b : autocomplete_result_t) : Z :=
  if fgtb (res_score a) (res_score b) then -1
  else if fltb (res_score a) (res_score b) then 1
  else 0.

(** The descent of [get_autocomplete_suggestions] along the query. *)
Fixpoint walk_prefix (current : trie_node_t) (normalized : cstring)
    : option trie_node_t :=
  match normalized with
  | [] => Some current
  | ch :: rest =>
      let c := char_code ch in
      if (128 <=? c)%nat then None
      else match child current c with
           | Some n => walk_prefix n rest
           | None => None
           end
  end.

(** The entries written to the caller's array; the returned count is
    their number. *)
Definition get_autocomplete_suggestions (query : cstring)
    (max_suggestions : Z) (ctx : autocomplete_context_t)
    : list autocomplete_result_t :=
  let normalized := map tolower (strncpy query (MAX_QUERY_LENGTH - 1)) in
  match walk_prefix (root ctx) normalized with
  | None => []
  | Some current =>
      qsort compare_suggestions
            (collect_suggestions_from_trie current max_suggestions [])
  end.

End Autocomplete.

(** ** search_engine.c *)

Section SearchEngine.
Context `{FloatOps} `{Qsort} `{Limits}.

Definition MAX_DOCUMENTS : nat := 100.

Record search_result_t := SearchResult {
  title : cstring;
  description : cstring;
  url : cstring;
  document_id : Z;
  relevance_score : float;
  timestamp : Z;
  click_count : Z;
  authority_score : float;
}.

Record search_config_t := SearchConfig {
  relevance_threshold : float;
  suggestion_threshold : float;
  max_results : Z;
  max_suggestions : Z;
}.

(** One line printed by [log_search_query]. *)
Record search_log_entry := SearchLogEntry {
  log_query : cstring;
  log_results : Z;
  log_ms : float;
}.

(** The file-scope variables of the engine, and the lines it has logged.
    [g_documents] is the whole array of [MAX_DOCUMENTS] slots; the
    catalog is its first [g_document_count] slots. *)
Record search_engine_t := SearchEngine {
  g_search_config : search_config_t;
  g_search_engine_initialized : bool;
  g_total_documents : Z;
  g_total_queries : Z;
  g_avg_response_time : float;
  g_documents : list search_result_t;
  g_document_count : Z;
  search_log : list search_log_entry;
}.

(** A zero-filled [search_result_t]. *)
Definition zero_document : search_result_t :=
  SearchResult [] [] [] 0 fzero 0 0 fzero.

(** The state at program start: static storage is zero-filled. *)
Definition search_engine_start : search_engine_t :=
  SearchEngine (SearchConfig fzero fzero 0 0) false 0 0 fzero
               (replicate MAX_DOCUMENTS zero_document) 0 [].

Definition catalog (st : search_engine_t) : list search_result_t :=
  take (Z.to_nat (g_document_count st)) (g_documents st).

Definition init_search_engine (st : search_engine_t) : search_engine_t :=
  SearchEngine
    (SearchConfig (f_lit 1 10) (f_lit 1 10)
                  MAX_SEARCH_RESULTS MAX_AUTOCOMPLETE_SUGGESTIONS)
    true 0 0 fzero (g_documents st) 0 (search_log st).

Definition to_lower_inplace (s : cstring) : cstring := map tolower s.

Definition add_document_to_search_engine_virtual
    (doc : search_result_t) (st : search_engine_t) : search_engine_t :=
  if Z.of_nat MAX_DOCUMENTS <=? g_document_count st then st
  else
    SearchEngine (g_search_config st) (g_search_engine_initialized st)
      (g_document_count st + 1) (g_total_queries st)
      (g_avg_response_time st)
      (<[Z.to_nat (g_document_count st) := doc]> (g_documents st))
      (g_document_count st + 1) (search_log st).

(** [filename] is the path to add, [file] what [fopen]/[fread] give for
    it ([None] when it cannot be opened), [now] is [time (NULL)]. *)
Definition add_document_to_search_engine
    (filename : cstring) (file : option cstring) (now : Z)
    (st : search_engine_t) : search_engine_t :=
  if Z.of_nat MAX_DOCUMENTS <=? g_document_count st then st
  else
    let doc :=
      SearchResult
        (strncpy filename (MAX_TITLE_LENGTH - 1))
        match file with
        | None =>
            strncpy (c_str "(Could not read file '" ++ filename ++ c_str "')")
                    (MAX_DESCRIPTION_LENGTH - 1)
        | Some data => strncpy data (MAX_DESCRIPTION_LENGTH - 1)
        end
        (c_str "local-file")
        (g_document_count st + 1) fzero now 0 fzero in
    SearchEngine (g_search_config st) (g_search_engine_initialized st)
      (g_document_count st + 1) (g_total_queries st)
      (g_avg_response_time st)
      (<[Z.to_nat (g_document_count st) := doc]> (g_documents st))
      (g_document_count st + 1) (search_log st).

(** [term] is a prefix of [text]: [strncmp (text, term, strlen (term)) == 0]. *)
Fixpoint starts_with (text term : cstring) : bool :=
  match term, text with
  | [], _ => true
  | _ :: _, [] => false
  | a :: term', b :: text' => bool_decide (a = b) && starts_with text' term'
  end.

(** [strstr (text, term)]: the suffix of [text] at the first occurrence. *)
Fixpoint strstr (text term : cstring) : option cstring :=
  if starts_with text term then Some text
  else match text with
       | [] => None
       | _ :: text' => strstr text' term
       end.

(** The [while] loop of [count_occurrences]; [fuel] bounds its number of
    iterations. *)
Fixpoint count_loop (fuel : nat) (p term : cstring) (count : Z) : Z :=
  match fuel with
  | O => count
  | S fuel' =>
      match strstr p term with
      | None => count
      | Some q => count_loop fuel' (drop (length term) q) term (count + 1)
      end
  end.

Definition count_occurrences (text term : cstring) : Z :=
  match term with
  | [] => 0
  | _ => count_loop (S (length text)) text term 0
  end.

(** [strtok (s, " ")] called until it returns NULL: the maximal runs of
    characters other than the space. [cur] is the run being read. *)
Fixpoint strtok_spaces (s cur : cstring) : list cstring :=
  match s with
  | [] => match cur with [] => [] | _ => [cur] end
  | c :: s' =>
      if bool_decide (c = " "%char) then
        match cur with
        | [] => strtok_spaces s' []
        | _ => cur :: strtok_spaces s' []
        end
      else strtok_spaces s' (cur ++ [c])
  end.

(** Step 1 of [search_and_rank]: at most 16 lowercase tokens. *)
Definition query_tokens (query : cstring) : list cstring :=
  take 16 (strtok_spaces
             (to_lower_inplace (strncpy query (MAX_QUERY_LENGTH - 1))) []).

(** One iteration of the token loop on [(doc_score, words_matched)]. *)
Definition score_token (title_l desc_l : cstring)
    (acc : float * Z) (term : cstring) : float * Z :=
  let title_hits := count_occurrences title_l term in
  let body_hits := count_occurrences desc_l term in
  (fadd acc.1 (f_of_Z (title_hits * 3 + body_hits)),
   if (0 <? title_hits) || (0 <? body_hits) then acc.2 + 1 else acc.2).

(** The body of the document loop: [scores[i]]. *)
Definition score_document (tokens : list cstring) (doc : search_result_t)
    : float :=
  let title_l := to_lower_inplace (strncpy (title doc) (MAX_TITLE_LENGTH - 1)) in
  let desc_l :=
    to_lower_inplace (strncpy (description doc) (MAX_DESCRIPTION_LENGTH - 1)) in
  let token_count := Z.of_nat (length tokens) in
  let acc := foldl (score_token title_l desc_l) (fzero, 0) tokens in
  if 1 <? token_count then
    fmul acc.1 (fadd fone (fdiv (f_of_Z acc.2) (f_of_Z token_count)))
  else acc.1.

(** [max_raw] after the maximum loop and the floor at [0.001f]. *)
Definition max_raw_score (scores : list float) : float :=
  let max_raw := foldl (λ m s, if fgtb s m then s else m) fzero scores in
  if fltb max_raw (f_lit 1 1000) then f_lit 1 1000 else max_raw.

Definition set_relevance (doc : search_result_t) (r : float)
    : search_result_t :=
  SearchResult (title doc) (description doc) (url doc) (document_id doc)
               r (timestamp doc) (click_count doc) (authority_score doc).

(** The array [local] after normalisation, before [qsort]. *)
Definition scored_documents (query : cstring) (st : search_engine_t)
    : list search_result_t :=
  let tokens := query_tokens query in
  let scores := map (score_document tokens) (catalog st) in
  let max_raw := max_raw_score scores in
  zip_with (λ doc s, set_relevance doc (fdiv s max_raw)) (catalog st) scores.

Definition cmp_results_descending (a b : search_result_t) : Z :=
  if fltb (relevance_score a) (relevance_score b) then 1
  else if fgtb (relevance_score a) (relevance_score b) then -1
  else 0.

(** [search_and_rank]: the entries written to [results] (the returned
    count is their number) and the new state. [start_time] and [end_time]
    are the two readings of [clock ()]. *)
Definition search_and_rank (query : cstring) (max_results : Z)
    (start_time end_time : Z) (st : search_engine_t)
    : list search_result_t * search_engine_t :=
  if max_results <=? 0 then ([], st)
  else if negb (g_search_engine_initialized st) then ([], st)
  else if g_document_count st =? 0 then ([], st)
  else
    let sorted := qsort cmp_results_descending (scored_documents query st) in
    let results := take (Z.to_nat max_results) sorted in
    let out_count := Z.of_nat (length results) in
    let ms :=
      fmul (fdiv (f_of_Z (end_time - start_time)) (f_of_Z CLOCKS_PER_SEC))
           (f_of_Z 1000) in
    let total := wrap_int (g_total_queries st + 1) in
    let avg :=
      fdiv (fadd (fmul (g_avg_response_time st) (f_of_Z (wrap_int (total - 1))))
                 ms)
           (f_of_Z total) in
    (results,
     SearchEngine (g_search_config st) true (g_total_documents st)
       total avg (g_documents st) (g_document_count st)
       (search_log st ++ [SearchLogEntry query out_count ms])).

Definition get_search_stats (st : search_engine_t) : Z * Z * float :=
  (g_total_documents st, g_total_queries st, g_avg_response_time st).

End SearchEngine.

(** ** minigit.h and minigit.c *)

Definition MAX_FILE_CONTENT : nat := Z.to_nat 50000.
Definition MAX_FILENAME : nat := 200.
Definition MAX_FILES_PER_COMMIT : Z := 50.
Definition WORKING_DIR : cstring := c_str ".mgit_work".
#[global] Opaque MAX_FILE_CONTENT.

(** [CommitFile]: the basename and the snapshot of a file. *)
Record CommitFile := mkCommitFile {
  cf_filename : cstring;
  cf_content : cstring;
}.

(** [Commit] without its [next] pointer: the chain of commits is the list
    [head] of the repository, newest first. [files] lists the slots
    [files[0]], [files[1]], ... that the commit loops have written. The C
    array is declared with [MAX_FILES_PER_COMMIT] slots and the loops store
    at [files[file_count]] without comparing [file_count] to that bound, so
    the list is not bounded either: a slot of index [MAX_FILES_PER_COMMIT]
    or more is a store past the end of the array. *)
Record Commit := mkCommit {
  commit_id : Z;
  message : cstring;
  files : list CommitFile;
  file_count : Z;
}.

Record Repository := mkRepository {
  head : list Commit;
  commit_count : Z;
}.

(** What the operations read from outside the program. *)
Record environment := mkEnvironment {
  read_file : cstring → option cstring;   (* fopen + fread; None: cannot open *)
  work_dir_entries : list cstring;        (* what readdir yields for WORKING_DIR *)
  cwd : cstring;                          (* getcwd *)
  now : Z;                                (* time (NULL) *)
  uninitialised : cstring;                (* a buffer of malloc memory never written *)
}.

(** What the [void] operations print. *)
Inductive outcome :=
| InvalidFilename
| FileDoesNotExist
| FileAdded
| NoFilesToCommit
| CommitCreated (id : Z)
| CommitNotFound
| CommitDeleted (id : Z).

Section MiniGit.
Context `{FloatOps} `{Qsort} `{Limits}.

(** The globals of the three modules, and the calls made to
    [trie_insert_word] of trie_index.c, which is not part of the sources
    at hand. *)
Record program_state := mkState {
  repo : Repository;
  index_head : list cstring;
  g_autocomplete_ctx : autocomplete_context_t;
  search_engine : search_engine_t;
  trie_insert_word_calls : list (cstring * cstring);
}.

Definition set_repo (r : Repository) (st : program_state) : program_state :=
  mkState r (index_head st) (g_autocomplete_ctx st) (search_engine st)
          (trie_insert_word_calls st).
Definition set_index_head (l : list cstring) (st : program_state)
    : program_state :=
  mkState (repo st) l (g_autocomplete_ctx st) (search_engine st)
          (trie_insert_word_calls st).
Definition set_autocomplete (a : autocomplete_context_t)
    (st : program_state) : program_state :=
  mkState (repo st) (index_head st) a (search_engine st)
          (trie_insert_word_calls st).
Definition set_search_engine (s : search_engine_t) (st : program_state)
    : program_state :=
  mkState (repo st) (index_head st) (g_autocomplete_ctx st) s
          (trie_insert_word_calls st).
Definition trie_insert_word (word tag : cstring) (st : program_state)
    : program_state :=
  mkState (repo st) (index_head st) (g_autocomplete_ctx st)
          (search_engine st) (trie_insert_word_calls st ++ [(word, tag)]).

(** The state after the initialisations of [main]. *)
Definition program_start : program_state :=
  mkState (mkRepository [] 0) [] init_autocomplete_system
          (init_search_engine search_engine_start) [].

Definition init_repository (st : program_state) : program_state :=
  set_repo (mkRepository [] 0) st.

(** The chunks successive [fgets (line, 1024, fp)] calls return. *)
Fixpoint fgets_lines (data cur : cstring) : list cstring :=
  match data with
  | [] => match cur with [] => [] | _ => [cur] end
  | c :: data' =>
      if bool_decide (c = "010"%char) || (length cur + 1 =? 1023)%nat
      then (cur ++ [c]) :: fgets_lines data' []
      else fgets_lines data' (cur ++ [c])
  end.

(** The words [index_file_for_search] reads in a line: maximal runs of
    alphanumeric characters and underscores, in lower case. *)
Fixpoint line_words (line word : cstring) : list cstring :=
  match line with
  | [] => match word with [] => [] | _ => [word] end
  | c :: rest =>
      if isalnum c || bool_decide (c = "_"%char)
      then line_words rest (word ++ [tolower c])
      else match word with
           | [] => line_words rest []
           | _ => word :: line_words rest []
           end
  end.

Definition index_word (filename : cstring) (now : Z)
    (st : program_state) (word : cstring) : program_state :=
  let st1 :=
    set_autocomplete
      (add_autocomplete_suggestion word (f_lit 6 10)
         AC_SOURCE_DOCUMENT_TITLES now (g_autocomplete_ctx st)).2 st in
  let trie_word := filter (λ c, is_lower c = true) word in
  match trie_word with
  | [] => st1
  | _ => trie_insert_word trie_word filename st1
  end.

Definition index_file_for_search (filename : cstring) (env : environment)
    (st : program_state) : program_state :=
  match read_file env filename with
  | None => st
  | Some data =>
      foldl (λ st line, foldl (index_word filename (now env)) st
                              (line_words line []))
            st (fgets_lines data [])
  end.

Definition index_commit_token (now : Z) (st : program_state)
    (token : cstring) : program_state :=
  let clean := map tolower (filter (λ c, isalnum c = true) token) in
  match clean with
  | [] => st
  | _ =>
      trie_insert_word clean (c_str "COMMIT")
        (set_autocomplete
           (add_autocomplete_suggestion clean (f_lit 7 10)
              AC_SOURCE_DOCUMENT_TITLES now (g_autocomplete_ctx st)).2 st)
  end.

Definition index_commit_message (msg : cstring) (id : Z)
    (env : environment) (st : program_state) : program_state :=
  let st1 :=
    foldl (index_commit_token (now env)) st
          (strtok_spaces (strncpy msg 511) []) in
  let doc :=
    SearchResult
      (strncpy (c_str "Commit #" ++ c_str (pretty id)) (MAX_TITLE_LENGTH - 1))
      (strncpy msg MAX_DESCRIPTION_LENGTH)
      (c_str "commit-msg") 0 fzero 0 0 fzero in
  set_search_engine
    (add_document_to_search_engine_virtual doc (search_engine st1)) st1.

(** [strrchr (path, '/')] and the step past the slash; [cur] is the
    answer for the part already read. *)
Fixpoint after_last_slash (path cur : cstring) : cstring :=
  match path with
  | [] => cur
  | c :: path' =>
      if bool_decide (c = "/"%char) then after_last_slash path' path'
      else after_last_slash path' cur
  end.
Definition basename (path : cstring) : cstring := after_last_slash path path.

Definition add_file (filename : cstring) (env : environment)
    (st : program_state) : outcome * program_state :=
  match filename with
  | [] => (InvalidFilename, st)
  | c :: _ =>
      let fullpath :=
        if bool_decide (c = "/"%char) || bool_decide (c = "\"%char)
        then strncpy filename (MAX_FILENAME - 1)
        else strncpy (cwd env ++ c_str "/" ++ filename) (MAX_FILENAME - 1) in
      match read_file env fullpath with
      | None => (FileDoesNotExist, st)
      | Some _ =>
          let st1 := set_index_head (fullpath :: index_head st) st in
          let st2 := index_file_for_search fullpath env st1 in
          (FileAdded,
           set_search_engine
             (add_document_to_search_engine fullpath
                (read_file env fullpath) (now env) (search_engine st2))
             st2)
      end
  end.

(** One iteration of the staged-file loop of [commit_staged] on the new
    commit and the program state. *)
Definition commit_staged_step (env : environment)
    (acc : Commit * program_state) (f : cstring) : Commit * program_state :=
  let cf :=
    mkCommitFile
      (strncpy (basename f) (MAX_FILENAME - 1))
      match read_file env f with
      | Some data => strncpy data (MAX_FILE_CONTENT - 1)
      | None => uninitialised env
      end in
  (mkCommit (commit_id acc.1) (message acc.1) (files acc.1 ++ [cf])
            (file_count acc.1 + 1),
   index_file_for_search f env acc.2).

Definition commit_staged (msg : cstring) (env : environment)
    (st : program_state) : outcome * program_state :=
  match index_head st with
  | [] => (NoFilesToCommit, st)
  | _ =>
      let id := wrap_int (commit_count (repo st) + 1) in
      let new_commit := mkCommit id (strncpy msg 255) [] 0 in
      let acc := foldl (commit_staged_step env) (new_commit, st) (index_head st) in
      let st1 := set_repo (mkRepository (acc.1 :: head (repo st)) id) acc.2 in
      let st2 := index_commit_message (message acc.1) id env st1 in
      (CommitCreated id, set_index_head [] st2)
  end.

(** One iteration of the [readdir] loop of [save_commit]. *)
Definition save_commit_step (env : environment)
    (acc : Commit * program_state) (d_name : cstring)
    : Commit * program_state :=
  match d_name with
  | c :: _ =>
      if bool_decide (c = "."%char) then acc
      else
        let path := strncpy (WORKING_DIR ++ c_str "/" ++ d_name) 511 in
        match read_file env path with
        | None => acc
        | Some data =>
            (mkCommit (commit_id acc.1) (message acc.1)
               (files acc.1 ++
                  [mkCommitFile (strncpy d_name MAX_FILENAME)
                                (strncpy data (MAX_FILE_CONTENT - 1))])
               (file_count acc.1 + 1),
             index_file_for_search path env acc.2)
        end
  | [] => acc
  end.

Definition save_commit (msg : cstring) (env : environment)
    (st : program_state) : outcome * program_state :=
  let id := wrap_int (commit_count (repo st) + 1) in
  let new_commit := mkCommit id (strncpy msg 255) [] 0 in
  let acc := foldl (save_commit_step env) (new_commit, st) (work_dir_entries env) in
  let st1 := set_repo (mkRepository (acc.1 :: head (repo st)) id) acc.2 in
  (CommitCreated id, index_commit_message (message acc.1) id env st1).

(** The search of [view_commit] and [checkout_commit]. *)
Fixpoint find_commit (cid : Z) (l : list Commit) : option Commit :=
  match l with
  | [] => None
  | c :: l' => if commit_id c =? cid then Some c else find_commit cid l'
  end.

Definition view_commit (cid : Z) (st : program_state) : option Commit :=
  find_commit cid (head (repo st)).

(** The lines of [view_log]. *)
Definition view_log (st : program_state) : list (Z * cstring) :=
  map (λ c, (commit_id c, message c)) (head (repo st)).

(** The unlinking of [delete_commit]: [None] when no commit has the id. *)
Fixpoint unlink_commit (cid : Z) (l : list Commit) : option (list Commit) :=
  match l with
  | [] => None
  | c :: l' =>
      if commit_id c =? cid then Some l'
      else cons c <$> unlink_commit cid l'
  end.

Definition delete_commit (cid : Z) (st : program_state)
    : outcome * program_state :=
  match unlink_commit cid (head (repo st)) with
  | None => (CommitNotFound, st)
  | Some l =>
      (CommitDeleted cid,
       set_repo (mkRepository l (commit_count (repo st))) st)
  end.

End MiniGit.

(** * Instances of the interfaces *)

(** ** Exact rational arithmetic *)

Definition Q_ltb (a b : Q) : bool := (Qnum a * QDen b <? Qnum b * QDen a)%Z.

Definition Q_float : FloatOps := {|
  float := Q;
  f_of_Z := inject_Z;
  f_lit n d := Qred (Qmake n (Z.to_pos d));
  fadd a b := Qred (Qplus a b);
  fmul a b := Qred (Qmult a b);
  fdiv a b := Qred (Qdiv a b);
  fltb := Q_ltb;
|}.

Lemma Q_ltb_lt a b : Q_ltb a b = true ↔ Qlt a b.
Proof. unfold Q_ltb, Qlt. apply Z.ltb_lt. Qed.

Lemma Q_leb_le a b : negb (Q_ltb b a) = true ↔ Qle a b.
Proof.
  rewrite negb_true_iff, <-not_true_iff_false, Q_ltb_lt.
  split; [apply Qnot_lt_le | apply Qle_not_lt].
Qed.

Lemma Q_float_laws : FloatLaws Q_float.
Proof.
  split; unfold fleb, fzero, fone; cbn [float f_of_Z f_lit fadd fmul fdiv fltb Q_float].
  - intros a. apply not_true_iff_false. rewrite Q_ltb_lt. apply Qlt_irrefl.
  - intros a b c. rewrite !Q_ltb_lt. apply Qlt_trans.
  - intros a b c. rewrite !Q_ltb_lt. intros Hac.
    destruct (Qlt_le_dec a b) as [?|Hba]; [by left | right].
    by apply Qle_lt_trans with a.
  - intros n Hn. rewrite Q_leb_le. by rewrite <-Zle_Qle.
  - intros n Hn. rewrite Q_ltb_lt. by rewrite <-Zlt_Qlt.
  - intros n d Hn Hd. rewrite Q_ltb_lt, Qred_correct.
    unfold Qlt; cbn. lia.
  - intros a b. rewrite !Q_leb_le, Qred_correct. intros Ha Hb.
    replace (inject_Z 0) with (0 + 0)%Q by done. by apply Qplus_le_compat.
  - intros a b. rewrite !Q_leb_le, Qred_correct. apply Qmult_le_0_compat.
  - intros a b. rewrite !Q_leb_le, Q_ltb_lt, Qred_correct. intros Ha Hb.
    apply Qle_shift_div_l; [done |]. by rewrite Qmult_0_l.
  - intros a b. rewrite !Q_leb_le, Q_ltb_lt, Qred_correct. intros Ha Hab Hb.
    apply Qle_shift_div_r; [done |]. by rewrite Qmult_1_l.
Qed.

(** ** IEEE-754 binary32

    The format of [float] on the usual platforms, with the operations of
    [SpecFloat] (precision 24, maximal exponent 128, round to nearest even).
    The model computes with it; a literal [n/d] is the correctly rounded
    quotient of the two integers. *)

Definition binary32_of_Z (n : Z) : spec_float := binary_normalize 24 128 n 0 false.

Definition binary32_float : FloatOps := {|
  float := spec_float;
  f_of_Z := binary32_of_Z;
  f_lit n d := SFdiv 24 128 (binary32_of_Z n) (binary32_of_Z d);
  fadd := SFadd 24 128;
  fmul := SFmul 24 128;
  fdiv := SFdiv 24 128;
  fltb := SFltb;
|}.

(** ** Two sorting procedures that meet the contract of [qsort] *)

Fixpoint insert_by {A} (cmp : A → A → Z) (x : A) (l : list A) : list A :=
  match l with
  | [] => [x]
  | y :: l' => if cmp x y <=? 0 then x :: l else y :: insert_by cmp x l'
  end.

(** Insertion sort; elements that compare equal keep their order. *)
Definition insertion_sort {A} (cmp : A → A → Z) (l : list A) : list A :=
  foldr (insert_by cmp) [] l.

(** Insertion sort of the reversed array; elements that compare equal end
    up in the reverse of their original order. *)
Definition reversing_sort {A} (cmp : A → A → Z) (l : list A) : list A :=
  insertion_sort cmp (reverse l).

Lemma insert_by_perm {A} (cmp : A → A → Z) x l : insert_by cmp x l ≡ₚ x :: l.
Proof.
  induction l as [|y l IH]; simpl; [done |].
  destruct (cmp x y <=? 0); [done |]. by rewrite IH, Permutation_swap.
Qed.

Lemma insertion_sort_perm {A} (cmp : A → A → Z) l : insertion_sort cmp l ≡ₚ l.
Proof.
  induction l as [|x l IH]; simpl; [done |].
  by rewrite insert_by_perm, IH.
Qed.

Lemma insert_by_sorted {A} (cmp : A → A → Z) x l :
  cmp_total cmp → cmp_trans cmp →
  StronglySorted (λ a b, cmp a b ≤ 0) l →
  StronglySorted (λ a b, cmp a b ≤ 0) (insert_by cmp x l).
Proof.
  intros Htot Htr. induction 1 as [|y l Hs IH Hy]; simpl.
  - repeat constructor.
  - destruct (Z.leb_spec (cmp x y) 0) as [Hxy|Hxy].
    + constructor; [by constructor |].
      constructor; [done |]. eapply Forall_impl; [exact Hy |].
      intros z Hz. by apply Htr with y.
    + constructor; [done |].
      rewrite insert_by_perm. constructor; [|done].
      destruct (Htot x y); [lia | done].
Qed.

Lemma insertion_sort_sorted {A} (cmp : A → A → Z) l :
  cmp_total cmp → cmp_trans cmp →
  StronglySorted (λ a b, cmp a b ≤ 0) (insertion_sort cmp l).
Proof.
  intros Htot Htr. induction l as [|x l IH]; simpl; [constructor |].
  by apply insert_by_sorted.
Qed.

Definition stable_qsort : Qsort := {|
  qsort := @insertion_sort;
  qsort_perm := @insertion_sort_perm;
  qsort_sorted := @insertion_sort_sorted;
|}.

Lemma reversing_sort_perm {A} (cmp : A → A → Z) l : reversing_sort cmp l ≡ₚ l.
Proof. unfold reversing_sort. by rewrite insertion_sort_perm, reverse_Permutation. Qed.

Lemma reversing_sort_sorted {A} (cmp : A → A → Z) l :
  cmp_total cmp → cmp_trans cmp →
  StronglySorted (λ a b, cmp a b ≤ 0) (reversing_sort cmp l).
Proof. apply insertion_sort_sorted. Qed.

Definition reversing_qsort : Qsort := {|
  qsort := @reversing_sort;
  qsort_perm := @reversing_sort_perm;
  qsort_sorted := @reversing_sort_sorted;
|}.

(** ** Sample values of the header constants *)

Definition sample_limits : Limits := {|
  MAX_QUERY_LENGTH := 256;
  MAX_SUGGESTION_LENGTH := 256;
  MAX_TITLE_LENGTH := 256;
  MAX_DESCRIPTION_LENGTH := 1024;
  MAX_SEARCH_RESULTS := 10;
  MAX_AUTOCOMPLETE_SUGGESTIONS := 10;
  CLOCKS_PER_SEC := 1000000;
|}.

(** * Properties *)

(** ** Arithmetic of [int] *)

Lemma wrap_int_id z : INT_MIN ≤ z ≤ INT_MAX → wrap_int z = z.
Proof.
  unfold wrap_int, INT_MIN, INT_MAX. intros Hz.
  rewrite Z.mod_small by lia. lia.
Qed.

(** ** The search catalog *)

Section CatalogProperties.
Context `{FloatOps} `{Qsort} `{Limits}.

(** The two ways of adding to the catalog. *)
Inductive catalog_add :=
| AddDocument (filename : cstring) (file : option cstring) (now : Z)
| AddVirtualDocument (doc : search_result_t).

Definition run_catalog_add (st : search_engine_t) (op : catalog_add)
    : search_engine_t :=
  match op with
  | AddDocument filename file now =>
      add_document_to_search_engine filename file now st
  | AddVirtualDocument doc => add_document_to_search_engine_virtual doc st
  end.

(** The array keeps its [MAX_DOCUMENTS] slots and the count stays within
    them. *)
Definition catalog_inv (st : search_engine_t) : Prop :=
  length (g_documents st) = MAX_DOCUMENTS ∧
  0 ≤ g_document_count st ≤ Z.of_nat MAX_DOCUMENTS.

Lemma catalog_inv_init st :
  length (g_documents st) = MAX_DOCUMENTS → catalog_inv (init_search_engine st).
Proof. intros Hl. split; simpl; [done | unfold MAX_DOCUMENTS; lia]. Qed.

Lemma catalog_inv_start : catalog_inv search_engine_start.
Proof.
  split; unfold search_engine_start; cbn [g_documents g_document_count].
  - apply length_replicate.
  - unfold MAX_DOCUMENTS; lia.
Qed.

Lemma run_catalog_add_full st op :
  Z.of_nat MAX_DOCUMENTS ≤ g_document_count st → run_catalog_add st op = st.
Proof.
  intros Hfull. apply Z.leb_le in Hfull.
  destruct op; simpl;
    unfold add_document_to_search_engine, add_document_to_search_engine_virtual;
    by rewrite Hfull.
Qed.

Lemma run_catalog_add_inv st op :
  catalog_inv st → catalog_inv (run_catalog_add st op).
Proof.
  intros [Hl Hc].
  destruct op; simpl;
    unfold add_document_to_search_engine, add_document_to_search_engine_virtual;
    destruct (Z.leb_spec (Z.of_nat MAX_DOCUMENTS) (g_document_count st));
    split; simpl; rewrite ?length_insert; try done; lia.
Qed.

Lemma run_catalog_adds_inv st ops :
  catalog_inv st → catalog_inv (foldl run_catalog_add st ops).
Proof.
  revert st. induction ops as [|op ops IH]; intros st Hst; simpl; [done |].
  by apply IH, run_catalog_add_inv.
Qed.

(** Below capacity an add fills the next slot: the catalog grows by the
    new document and keeps the others. *)
Lemma catalog_add_virtual st doc :
  catalog_inv st → g_document_count st < Z.of_nat MAX_DOCUMENTS →
  catalog (add_document_to_search_engine_virtual doc st) = catalog st ++ [doc].
Proof.
  intros [Hl Hc] Hlt. unfold add_document_to_search_engine_virtual, catalog.
  destruct (Z.leb_spec (Z.of_nat MAX_DOCUMENTS) (g_document_count st)); [lia |].
  simpl. replace (Z.to_nat (g_document_count st + 1))
    with (S (Z.to_nat (g_document_count st))) by lia.
  set (n := Z.to_nat (g_document_count st)).
  assert (n < length (g_documents st))%nat by (rewrite Hl; lia).
  erewrite take_S_r by (by apply list_lookup_insert_eq).
  by rewrite take_insert_ge by lia.
Qed.

(** C5. The document count never exceeds the capacity of [MAX_DOCUMENTS]
    = 100 under any sequence of add_document_to_search_engine and
    add_document_to_search_engine_virtual calls on an initialised engine,
    and an add on a full catalog returns the state it was given, so that
    every document in it is unchanged. *)
Theorem catalog_capacity_bound (st0 : search_engine_t) (ops : list catalog_add) :
  let st := foldl run_catalog_add (init_search_engine st0) ops in
  g_document_count st ≤ 100 ∧
  (length (catalog st) ≤ 100)%nat ∧
  ∀ op, g_document_count st = 100 →
        run_catalog_add st op = st ∧
        catalog (run_catalog_add st op) = catalog st.
Proof.
  intros st.
  assert (Hc : 0 ≤ g_document_count st ≤ 100).
  { subst st. generalize (init_search_engine st0), (eq_refl : g_document_count (init_search_engine st0) = 0).
    intros s Hs. assert (0 ≤ g_document_count s ≤ 100) as Hb by lia. clear Hs.
    revert s Hb. induction ops as [|op ops IH]; intros s Hb; simpl; [done |].
    apply IH. destruct op; simpl;
      unfold add_document_to_search_engine, add_document_to_search_engine_virtual;
      destruct (Z.leb_spec (Z.of_nat MAX_DOCUMENTS) (g_document_count s));
      simpl; unfold MAX_DOCUMENTS in *; lia. }
  split; [lia |]. split.
  - unfold catalog. rewrite length_take. lia.
  - intros op Hfull.
    rewrite run_catalog_add_full by (unfold MAX_DOCUMENTS; lia). done.
Qed.

End CatalogProperties.

(** ** The snapshot store *)

Lemma foldl_preserves {A B} (P : B → Prop) (f : B → A → B) (l : list A) (b : B) :
  (∀ b a, P b → P (f b a)) → P b → P (foldl f b l).
Proof.
  intros Hf. revert b. induction l as [|a l IH]; intros b Hb; simpl; [done |].
  by apply IH, Hf.
Qed.

Section StoreProperties.
Context `{FloatOps} `{Qsort} `{Limits}.

(** Indexing touches the two engines and nothing of the store. *)
Definition same_store (st st' : program_state) : Prop :=
  repo st' = repo st ∧ index_head st' = index_head st.

(** Indexing a file leaves the search catalog alone as well. *)
Definition same_store_and_catalog (st st' : program_state) : Prop :=
  same_store st st' ∧ search_engine st' = search_engine st.

Lemma index_word_frame filename t st word :
  same_store_and_catalog st (index_word filename t st word).
Proof. unfold index_word. by destruct (filter _ word). Qed.

Lemma index_file_for_search_frame filename env st :
  same_store_and_catalog st (index_file_for_search filename env st).
Proof.
  unfold index_file_for_search. destruct (read_file env filename); [|done].
  apply (foldl_preserves (same_store_and_catalog st)); [|done].
  intros st1 line Hst1.
  apply (foldl_preserves (same_store_and_catalog st)); [|done].
  intros st2 word [[??] ?].
  destruct (index_word_frame filename (now env) st2 word) as [[??] ?].
  repeat split; congruence.
Qed.

Lemma index_commit_token_frame t st token :
  same_store st (index_commit_token t st token).
Proof. unfold index_commit_token. by destruct (map _ _). Qed.

Lemma index_commit_message_frame msg id env st :
  same_store st (index_commit_message msg id env st).
Proof.
  unfold index_commit_message. simpl.
  apply (foldl_preserves (same_store st)); [|done].
  intros st1 token [??].
  destruct (index_commit_token_frame (now env) st1 token). split; congruence.
Qed.

(** The staged-file loop: one snapshot per staged file, in order, and
    [file_count] raised by one for each. *)
Definition staged_snapshot (env : environment) (f : cstring) : CommitFile :=
  mkCommitFile
    (strncpy (basename f) (MAX_FILENAME - 1))
    match read_file env f with
    | Some data => strncpy data (MAX_FILE_CONTENT - 1)
    | None => uninitialised env
    end.

Lemma commit_staged_loop env c st staged :
  let acc := foldl (commit_staged_step env) (c, st) staged in
  acc.1 = mkCommit (commit_id c) (message c)
                   (files c ++ map (staged_snapshot env) staged)
                   (file_count c + Z.of_nat (length staged)) ∧
  same_store st acc.2.
Proof.
  revert c st. induction staged as [|f staged IH]; intros c st acc.
  - subst acc; simpl. rewrite app_nil_r, Z.add_0_r. by destruct c.
  - subst acc. simpl foldl.
    change (commit_staged_step env (c, st) f)
      with (mkCommit (commit_id c) (message c)
              (files c ++ [staged_snapshot env f]) (file_count c + 1),
            index_file_for_search f env st).
    destruct (IH (mkCommit (commit_id c) (message c)
                    (files c ++ [staged_snapshot env f]) (file_count c + 1))
                 (index_file_for_search f env st)) as [-> [Hr Hi]].
    simpl. split.
    + f_equal; [by rewrite <-app_assoc | lia].
    + destruct (index_file_for_search_frame f env st) as [[??] ?].
      split; congruence.
Qed.

(** The directory loop of [save_commit]: the entries it snapshots are
    those whose name does not start with a dot and that can be opened. *)
Definition saved_snapshot (env : environment) (d_name : cstring)
    : option CommitFile :=
  match d_name with
  | c :: _ =>
      if bool_decide (c = "."%char) then None
      else
        (λ data, mkCommitFile (strncpy d_name MAX_FILENAME)
                              (strncpy data (MAX_FILE_CONTENT - 1)))
          <$> read_file env (strncpy (WORKING_DIR ++ c_str "/" ++ d_name) 511)
  | [] => None
  end.

Definition work_path (d_name : cstring) : cstring :=
  strncpy (WORKING_DIR ++ c_str "/" ++ d_name) 511.

Lemma save_commit_step_eq env c st d :
  save_commit_step env (c, st) d =
  match saved_snapshot env d with
  | None => (c, st)
  | Some cf =>
      (mkCommit (commit_id c) (message c) (files c ++ [cf]) (file_count c + 1),
       index_file_for_search (work_path d) env st)
  end.
Proof.
  unfold save_commit_step, saved_snapshot, work_path.
  destruct d as [|ch d]; [done |].
  destruct (bool_decide (ch = "."%char)); [done |].
  by destruct (read_file env _).
Qed.

Lemma omap_cons_eq {A B} (f : A → option B) x l :
  omap f (x :: l) = match f x with Some y => y :: omap f l | None => omap f l end.
Proof. done. Qed.

Lemma save_commit_loop env c st entries :
  let acc := foldl (save_commit_step env) (c, st) entries in
  acc.1 = mkCommit (commit_id c) (message c)
                   (files c ++ omap (saved_snapshot env) entries)
                   (file_count c + Z.of_nat (length (omap (saved_snapshot env) entries))) ∧
  same_store st acc.2.
Proof.
  revert c st. induction entries as [|d entries IH]; intros c st acc.
  - subst acc; simpl. rewrite app_nil_r, Z.add_0_r. by destruct c.
  - subst acc. simpl foldl. rewrite save_commit_step_eq, omap_cons_eq.
    destruct (saved_snapshot env d) as [cf|]; [|apply IH].
    match goal with |- context [foldl _ (?c', ?st') entries] =>
      destruct (IH c' st') as [-> [Hr Hi]] end.
    cbn [commit_id message files file_count length]. split.
    + f_equal; [by rewrite <-app_assoc | lia].
    + destruct (index_file_for_search_frame (work_path d) env st) as [[??] ?].
      split; congruence.
Qed.

(** What [commit_staged] does when something is staged. *)
Lemma commit_staged_some msg env st :
  index_head st ≠ [] →
  let id := wrap_int (commit_count (repo st) + 1) in
  let c := mkCommit id (strncpy msg 255)
                    (map (staged_snapshot env) (index_head st))
                    (Z.of_nat (length (index_head st))) in
  let r := commit_staged msg env st in
  r.1 = CommitCreated id ∧
  repo r.2 = mkRepository (c :: head (repo st)) id ∧
  index_head r.2 = [].
Proof.
  intros Hne id c r. subst r c. unfold commit_staged.
  destruct (index_head st) as [|f staged] eqn:Hst; [done |].
  rewrite <-Hst. fold id.
  destruct (commit_staged_loop env (mkCommit id (strncpy msg 255) [] 0) st
              (index_head st)) as [Hc [Hr Hi]].
  cbn [commit_id message files file_count app] in Hc.
  rewrite Z.add_0_l in Hc. cbn [fst snd]. rewrite Hc. cbn [message].
  match goal with |- context [index_commit_message ?m ?i env ?s] =>
    destruct (index_commit_message_frame m i env s) as [Hr' _] end.
  unfold set_index_head at 1 2. cbn [repo index_head]. by rewrite Hr'.
Qed.

Lemma commit_staged_none msg env st :
  index_head st = [] → commit_staged msg env st = (NoFilesToCommit, st).
Proof. intros Hst. unfold commit_staged. by rewrite Hst. Qed.

(** What [save_commit] does. *)
Lemma save_commit_spec msg env st :
  let id := wrap_int (commit_count (repo st) + 1) in
  let snaps := omap (saved_snapshot env) (work_dir_entries env) in
  let c := mkCommit id (strncpy msg 255) snaps (Z.of_nat (length snaps)) in
  let r := save_commit msg env st in
  r.1 = CommitCreated id ∧
  repo r.2 = mkRepository (c :: head (repo st)) id ∧
  index_head r.2 = index_head st.
Proof.
  intros id snaps c r. subst r c snaps. unfold save_commit. fold id.
  destruct (save_commit_loop env (mkCommit id (strncpy msg 255) [] 0) st
              (work_dir_entries env)) as [Hc [Hr Hi]].
  cbn [commit_id message files file_count app] in Hc.
  rewrite Z.add_0_l in Hc. cbn [fst snd]. rewrite Hc. cbn [message].
  match goal with |- context [index_commit_message ?m ?i env ?s] =>
    destruct (index_commit_message_frame m i env s) as [-> ->] end.
  by unfold set_repo.
Qed.

Lemma add_file_frame filename env st :
  repo (add_file filename env st).2 = repo st.
Proof.
  unfold add_file. destruct filename as [|ch filename]; [done |].
  destruct (read_file env _); [|done]. cbn [snd].
  match goal with |- context [index_file_for_search ?p env ?s] =>
    destruct (index_file_for_search_frame p env s) as [[Hr _] _] end.
  unfold set_search_engine. cbn [repo]. by rewrite Hr.
Qed.

End StoreProperties.

(** ** Runs of the store *)

(** The operations of the store that a caller interleaves. *)
Inductive store_op :=
| Stage (filename : cstring) (env : environment)
| CommitStaged (msg : cstring) (env : environment)
| SaveFromWorkingDirectory (msg : cstring) (env : environment)
| Delete (cid : Z).

Definition created_id (o : outcome) : option Z :=
  match o with
  | CommitCreated id => Some id
  | _ => None
  end.

(** The ids given to new commits, in the order of their creation. *)
Definition created_ids (outs : list outcome) : list Z := omap created_id outs.

Section StoreRuns.
Context `{FloatOps} `{Qsort} `{Limits}.

Definition run_op (st : program_state) (op : store_op)
    : outcome * program_state :=
  match op with
  | Stage filename env => add_file filename env st
  | CommitStaged msg env => commit_staged msg env st
  | SaveFromWorkingDirectory msg env => save_commit msg env st
  | Delete cid => delete_commit cid st
  end.

(** What a sequence of operations prints, and the final state. *)
Fixpoint run_ops (st : program_state) (ops : list store_op)
    : list outcome * program_state :=
  match ops with
  | [] => ([], st)
  | op :: ops' =>
      let r := run_op st op in
      let rs := run_ops r.2 ops' in
      (r.1 :: rs.1, rs.2)
  end.

Definition commit_ids (st : program_state) : list Z :=
  map commit_id (head (repo st)).

(** The ids in the list decrease from the head and none exceeds the
    counter. *)
Definition repo_inv (st : program_state) : Prop :=
  0 ≤ commit_count (repo st) ∧
  StronglySorted (λ a b, b < a) (commit_ids st) ∧
  Forall (λ i, i ≤ commit_count (repo st)) (commit_ids st).

Lemma repo_inv_init st : repo_inv (init_repository st).
Proof. repeat split; simpl; [done | constructor | constructor]. Qed.

Lemma unlink_commit_None cid l :
  unlink_commit cid l = None ↔ cid ∉ map commit_id l.
Proof.
  induction l as [|c l IH]; simpl.
  - split; [intros _; apply not_elem_of_nil | done].
  - rewrite not_elem_of_cons. destruct (Z.eqb_spec (commit_id c) cid) as [->|Hne].
    + split; [done | by intros [? _]].
    + destruct (unlink_commit cid l); simpl.
      * split; [done |]. intros [_ Hin]. by apply IH in Hin.
      * split; [|done]. intros _. split; [done | by apply IH].
Qed.

Lemma unlink_commit_Some cid l l' :
  unlink_commit cid l = Some l' →
  ∃ l1 c l2, l = l1 ++ c :: l2 ∧ l' = l1 ++ l2 ∧ commit_id c = cid ∧
             cid ∉ map commit_id l1.
Proof.
  revert l'. induction l as [|c l IH]; intros l'; simpl; [done |].
  destruct (Z.eqb_spec (commit_id c) cid) as [Heq|Hne].
  - intros [= <-]. exists [], c, l. repeat split; [done |]. apply not_elem_of_nil.
  - destruct (unlink_commit cid l) as [l0|]; simpl; [|done].
    intros [= <-]. destruct (IH l0 eq_refl) as (l1 & c' & l2 & -> & -> & ? & ?).
    exists (c :: l1), c', l2. repeat split; [done |].
    simpl. rewrite not_elem_of_cons. split; [done | done].
Qed.

Lemma filter_other_ids cid l :
  cid ∉ map commit_id l → filter (λ c, commit_id c ≠ cid) l = l.
Proof.
  induction l as [|c l IH]; simpl; [done |].
  rewrite not_elem_of_cons. intros [Hne Hin].
  rewrite filter_cons_True by done. by rewrite IH.
Qed.

Lemma unlink_commit_filter cid l l' :
  NoDup (map commit_id l) → unlink_commit cid l = Some l' →
  l' = filter (λ c, commit_id c ≠ cid) l.
Proof.
  intros Hnd Hu. destruct (unlink_commit_Some _ _ _ Hu)
    as (l1 & c & l2 & -> & -> & Hc & Hl1).
  rewrite map_app in Hnd. simpl in Hnd.
  apply NoDup_app in Hnd as (_ & Hdisj & Hnd2).
  apply NoDup_cons in Hnd2 as [Hc2 _]. rewrite Hc in Hc2.
  rewrite filter_app, filter_cons_False by (intros ?; done).
  by rewrite !filter_other_ids.
Qed.

Lemma find_commit_None cid l :
  find_commit cid l = None ↔ cid ∉ map commit_id l.
Proof.
  induction l as [|c l IH]; simpl.
  - split; [intros _; apply not_elem_of_nil | done].
  - rewrite not_elem_of_cons. destruct (Z.eqb_spec (commit_id c) cid) as [->|Hne].
    + split; [done | by intros [? _]].
    + rewrite IH. split; [by split | by intros [_ ?]].
Qed.

Lemma find_commit_filter cid cid' l :
  cid' ≠ cid →
  find_commit cid' (filter (λ c, commit_id c ≠ cid) l) = find_commit cid' l.
Proof.
  intros Hne. induction l as [|c l IH]; simpl; [done |].
  destruct (decide (commit_id c = cid)) as [Hc|Hc].
  - rewrite filter_cons_False by (intros ?; done).
    destruct (Z.eqb_spec (commit_id c) cid'); [congruence | done].
  - rewrite filter_cons_True by done. simpl. by rewrite IH.
Qed.

Lemma sorted_ids_NoDup (l : list Z) : StronglySorted (λ a b, b < a) l → NoDup l.
Proof.
  induction 1 as [|x l Hs IH Hx]; constructor; [|done].
  intros Hin. rewrite Forall_forall in Hx. specialize (Hx x Hin). lia.
Qed.

Lemma sorted_remove_middle {A} (R : relation A) l1 x l2 :
  StronglySorted R (l1 ++ x :: l2) → StronglySorted R (l1 ++ l2).
Proof.
  rewrite !StronglySorted_app, StronglySorted_cons.
  intros (Hcross & Hl1 & _ & Hl2). repeat split; [|done..].
  intros x1 x2 ??. apply Hcross; [done | apply elem_of_cons; by right].
Qed.

(** One operation: the counter stays or advances by one, a created commit
    gets the new value of the counter, and the invariant is kept. *)
Lemma run_op_step st op :
  repo_inv st → commit_count (repo st) < INT_MAX →
  let r := run_op st op in
  repo_inv r.2 ∧
  match created_id r.1 with
  | Some id => id = commit_count (repo st) + 1 ∧ commit_count (repo r.2) = id
  | None => commit_count (repo r.2) = commit_count (repo st)
  end.
Proof.
  intros (Hc & Hs & Hb) Hmax r. subst r.
  assert (Hw : wrap_int (commit_count (repo st) + 1) = commit_count (repo st) + 1).
  { apply wrap_int_id. unfold INT_MIN, INT_MAX in *. lia. }
  assert (Hnew : ∀ c st',
    repo st' = mkRepository (c :: head (repo st)) (commit_count (repo st) + 1) →
    commit_id c = commit_count (repo st) + 1 → repo_inv st').
  { intros c st' Hr Hid. unfold repo_inv, commit_ids. rewrite Hr. simpl.
    split; [lia |]. rewrite Hid. split.
    - constructor; [done |]. eapply Forall_impl; [exact Hb |]. simpl. lia.
    - constructor; [lia |]. eapply Forall_impl; [exact Hb |]. simpl. lia. }
  destruct op as [filename env|msg env|msg env|cid]; cbn [run_op].
  - assert (created_id (add_file filename env st).1 = None) as ->.
    { unfold add_file. destruct filename; [done |]. by destruct (read_file env _). }
    pose proof (add_file_frame filename env st) as Hr.
    unfold repo_inv, commit_ids. by rewrite Hr.
  - destruct (index_head st) as [|f staged] eqn:Hst.
    + by rewrite commit_staged_none.
    + destruct (commit_staged_some msg env st) as (Ho & Hr & _); [by rewrite Hst |].
      rewrite Hw in *. rewrite Ho. cbn [created_id].
      split; [by eapply Hnew | by rewrite Hr].
  - destruct (save_commit_spec msg env st) as (Ho & Hr & _).
    rewrite Hw in *. rewrite Ho. cbn [created_id].
    split; [by eapply Hnew | by rewrite Hr].
  - unfold delete_commit.
    destruct (unlink_commit cid (head (repo st))) as [l|] eqn:Hu; simpl; [|done].
    split; [|done]. destruct (unlink_commit_Some _ _ _ Hu)
      as (l1 & c & l2 & Hl & -> & _ & _).
    unfold repo_inv, commit_ids in *. simpl. rewrite Hl in Hs, Hb.
    rewrite map_app in *. simpl in Hs, Hb. split; [done |]. split.
    + by apply sorted_remove_middle in Hs.
    + rewrite Forall_app in *. destruct Hb as [? Hb].
      apply Forall_cons in Hb as [_ ?]. done.
Qed.

End StoreRuns.

Section StoreTheorems.
Context `{FloatOps} `{Qsort} `{Limits}.

Lemma run_ops_app st ops1 ops2 :
  run_ops st (ops1 ++ ops2) =
  ((run_ops st ops1).1 ++ (run_ops (run_ops st ops1).2 ops2).1,
   (run_ops (run_ops st ops1).2 ops2).2).
Proof.
  revert st. induction ops1 as [|op ops1 IH]; intros st.
  - simpl. by destruct (run_ops st ops2).
  - simpl. by rewrite IH.
Qed.

Lemma created_ids_app outs1 outs2 :
  created_ids (outs1 ++ outs2) = created_ids outs1 ++ created_ids outs2.
Proof. apply omap_app. Qed.

(** Along a run that keeps the counter below [INT_MAX], the created ids
    increase and lie between the old and the new value of the counter. *)
Lemma run_ops_ids st ops :
  repo_inv st →
  commit_count (repo st) + Z.of_nat (length ops) ≤ INT_MAX →
  let r := run_ops st ops in
  repo_inv r.2 ∧
  commit_count (repo st) ≤ commit_count (repo r.2) ∧
  StronglySorted Z.lt (created_ids r.1) ∧
  Forall (λ i, commit_count (repo st) < i ≤ commit_count (repo r.2))
         (created_ids r.1).
Proof.
  revert st. induction ops as [|op ops IH]; intros st Hinv Hlen r; subst r.
  - cbn [run_ops fst snd created_ids omap list_omap].
    split; [done |]. split; [lia |]. split; constructor.
  - cbn [run_ops fst snd]. rewrite length_cons in Hlen.
    destruct (run_op_step st op Hinv) as [Hinv1 Hid]; [lia |].
    set (st1 := (run_op st op).2) in *.
    assert (Hc1 : commit_count (repo st) ≤ commit_count (repo st1) ≤
                  commit_count (repo st) + 1).
    { destruct (created_id (run_op st op).1); lia. }
    destruct (IH st1 Hinv1) as (Hinv2 & Hle & Hs & Hb); [lia |].
    split; [done |]. split; [lia |].
    unfold created_ids. rewrite omap_cons_eq. fold (created_ids (run_ops st1 ops).1).
    destruct (created_id (run_op st op).1) as [id|].
    + destruct Hid as [-> Hid]. split.
      * constructor; [done |]. eapply Forall_impl; [exact Hb |]. simpl. lia.
      * constructor; [lia |]. eapply Forall_impl; [exact Hb |]. simpl. lia.
    + split; [done |]. eapply Forall_impl; [exact Hb |]. simpl. lia.
Qed.

Lemma delete_commit_frame_eq cid st :
  let st' := (delete_commit cid st).2 in
  commit_count (repo st') = commit_count (repo st) ∧
  index_head st' = index_head st ∧
  g_autocomplete_ctx st' = g_autocomplete_ctx st ∧
  search_engine st' = search_engine st ∧
  trie_insert_word_calls st' = trie_insert_word_calls st.
Proof.
  unfold delete_commit.
  by destruct (unlink_commit cid (head (repo st))).
Qed.

Lemma delete_commit_created_id cid st : created_id (delete_commit cid st).1 = None.
Proof. unfold delete_commit. by destruct (unlink_commit cid (head (repo st))). Qed.

(** C6. In any run of Stage, CommitStaged, SaveFromWorkingDirectory and
    Delete operations from an initialised repository (short enough for
    the [int] counter not to overflow), the ids given to the commits that
    commit_staged and save_commit create strictly increase in creation
    order; delete_commit leaves the id counter as it is, and no id created
    before a Delete is given again to a commit created after it. *)
Theorem commit_ids_strictly_increase (st0 : program_state) (ops : list store_op) :
  Z.of_nat (length ops) ≤ INT_MAX →
  StronglySorted Z.lt (created_ids (run_ops (init_repository st0) ops).1) ∧
  ∀ ops1 cid ops2, ops = ops1 ++ Delete cid :: ops2 →
    let before := run_ops (init_repository st0) ops1 in
    let after_delete := (delete_commit cid before.2).2 in
    commit_count (repo after_delete) = commit_count (repo before.2) ∧
    ∀ id, id ∈ created_ids before.1 →
          id ∉ created_ids (run_ops after_delete ops2).1.
Proof.
  intros Hlen.
  destruct (run_ops_ids (init_repository st0) ops (repo_inv_init st0))
    as (_ & _ & Hs & _); [simpl; lia |].
  split; [done |].
  intros ops1 cid ops2 -> before after_delete.
  split; [apply delete_commit_frame_eq |].
  rewrite run_ops_app in Hs. cbn [fst run_ops run_op] in Hs.
  rewrite created_ids_app in Hs. unfold created_ids at 2 in Hs.
  rewrite omap_cons_eq, delete_commit_created_id in Hs.
  intros id Hin Hin'.
  pose proof (StronglySorted_app_1_elem_of _ _ _ _ _ Hs Hin Hin'). lia.
Qed.


(** C8. In any state reached from an initialised repository,
    delete_commit takes the commit with the given id out of the list:
    view_log no longer shows the id and view_commit does not find it;
    every other commit stays, in the same order; the id counter, the
    staging list, the autocomplete trie and the search catalog are
    unchanged, so that get_autocomplete_suggestions and search_and_rank
    answer as they did before the deletion. *)
Theorem delete_commit_frame (st0 : program_state) (ops : list store_op) (cid : Z) :
  Z.of_nat (length ops) ≤ INT_MAX →
  let st := (run_ops (init_repository st0) ops).2 in
  let st' := (delete_commit cid st).2 in
  head (repo st') = filter (λ c, commit_id c ≠ cid) (head (repo st)) ∧
  (cid ∉ map fst (view_log st')) ∧
  view_commit cid st' = None ∧
  (∀ cid', cid' ≠ cid → view_commit cid' st' = view_commit cid' st) ∧
  commit_count (repo st') = commit_count (repo st) ∧
  index_head st' = index_head st ∧
  g_autocomplete_ctx st' = g_autocomplete_ctx st ∧
  search_engine st' = search_engine st ∧
  (∀ query max,
     get_autocomplete_suggestions query max (g_autocomplete_ctx st') =
     get_autocomplete_suggestions query max (g_autocomplete_ctx st)) ∧
  (∀ query max t0 t1,
     (search_and_rank query max t0 t1 (search_engine st')).1 =
     (search_and_rank query max t0 t1 (search_engine st)).1).
Proof.
  intros Hlen st st'.
  destruct (run_ops_ids (init_repository st0) ops (repo_inv_init st0))
    as ((_ & Hs & _) & _); [simpl; lia |].
  fold st in Hs. apply sorted_ids_NoDup in Hs. unfold commit_ids in Hs.
  destruct (delete_commit_frame_eq cid st) as (Hc & Hi & Ha & Hse & _).
  fold st' in Hc, Hi, Ha, Hse.
  assert (Hhead : head (repo st') =
                  filter (λ c, commit_id c ≠ cid) (head (repo st))).
  { subst st'. unfold delete_commit.
    destruct (unlink_commit cid (head (repo st))) as [l|] eqn:Hu; cbn [snd].
    - cbn [set_repo repo head]. by apply unlink_commit_filter.
    - apply unlink_commit_None in Hu. by rewrite filter_other_ids. }
  assert (Hnot : cid ∉ map commit_id (head (repo st'))).
  { rewrite Hhead. intros (c & Hc' & Hin)%list_elem_of_fmap.
    apply list_elem_of_filter in Hin as [Hne _]. done. }
  split; [done |]. split.
  { unfold view_log. by rewrite map_map. }
  split; [by apply find_commit_None |]. split.
  { intros cid' Hne. unfold view_commit. rewrite Hhead.
    by apply find_commit_filter. }
  repeat split; try done.
  - intros. by rewrite Ha.
  - intros. by rewrite Hse.
Qed.

End StoreTheorems.

(** ** The number of snapshots of a commit *)

Section SnapshotCount.
Context `{FloatOps} `{Qsort} `{Limits}.

Lemma add_file_staged filename env st :
  filename ≠ [] →
  let fullpath :=
    match filename with
    | c :: _ =>
        if bool_decide (c = "/"%char) || bool_decide (c = "\"%char)
        then strncpy filename (MAX_FILENAME - 1)
        else strncpy (cwd env ++ c_str "/" ++ filename) (MAX_FILENAME - 1)
    | [] => []
    end in
  is_Some (read_file env fullpath) →
  index_head (add_file filename env st).2 = fullpath :: index_head st.
Proof.
  intros Hne fullpath [data Hdata]. subst fullpath. unfold add_file.
  destruct filename as [|c filename]; [done |].
  rewrite Hdata. cbn [snd].
  match goal with |- context [index_file_for_search ?p env ?s] =>
    destruct (index_file_for_search_frame p env s) as [[_ Hi] _] end.
  unfold set_search_engine. cbn [index_head]. by rewrite Hi.
Qed.

(** Staging [n] times a file that can be read puts [n] entries on the
    staging list. *)
Lemma stage_many filename env st n :
  filename ≠ [] → (∀ path, is_Some (read_file env path)) →
  length (index_head (run_ops st (replicate n (Stage filename env))).2) =
  (n + length (index_head st))%nat.
Proof.
  intros Hne Hread. revert st. induction n as [|n IH]; intros st; [done |].
  cbn [replicate run_ops snd run_op]. rewrite IH.
  rewrite add_file_staged by done. simpl. lia.
Qed.

(** An environment in which every path can be opened and holds the text
    "x", and the working directory lists the [n] entries "f0", "f1", ... *)
Definition crowded_env (n : nat) : environment :=
  mkEnvironment (λ _, Some (c_str "x"))
                (map (λ i : nat, c_str "f" ++ c_str (pretty i)) (seq 0 n))
                (c_str "/home") 0 [].


End SnapshotCount.

(** ** Counting occurrences *)

Lemma starts_with_length text term :
  starts_with text term = true → (length term ≤ length text)%nat.
Proof.
  revert text. induction term as [|a term IH]; intros [|b text]; simpl;
    try done; try lia.
  intros [_ Hs]%andb_prop. apply IH in Hs. lia.
Qed.

Lemma starts_with_prefix text term :
  starts_with text term = true ↔ term `prefix_of` text.
Proof.
  revert text. induction term as [|a term IH]; intros [|b text]; simpl.
  - split; [intros _; apply prefix_nil | done].
  - split; [intros _; apply prefix_nil | done].
  - split; [done | intros Hp; by apply prefix_nil_inv in Hp].
  - rewrite andb_true_iff, bool_decide_eq_true, IH. split.
    + intros [-> Hp]. by apply prefix_cons.
    + intros Hp. split; [by apply prefix_cons_inv_1 in Hp |
                         by apply prefix_cons_inv_2 in Hp].
Qed.

(** [strstr] returns a suffix of the text that starts with the term. *)
Lemma strstr_Some text term q :
  strstr text term = Some q →
  starts_with q term = true ∧ ∃ skipped, text = skipped ++ q.
Proof.
  induction text as [|b text IH].
  - cbn [strstr]. destruct (starts_with [] term) eqn:Hs; [|done].
    intros [= <-]. split; [done | by exists []].
  - cbn [strstr]. destruct (starts_with (b :: text) term) eqn:Hs.
    + intros [= <-]. split; [done | by exists []].
    + intros Hq. destruct (IH Hq) as [? [skipped ->]].
      split; [done | by exists (b :: skipped)].
Qed.

(** More fuel than the length of the text changes nothing: the loop has
    ended by itself, on a NULL from [strstr]. *)
Lemma count_loop_fuel fuel fuel' p term count :
  term ≠ [] → (length p < fuel)%nat → (fuel ≤ fuel')%nat →
  count_loop fuel' p term count = count_loop fuel p term count.
Proof.
  intros Hterm. revert fuel' p count.
  induction fuel as [|fuel IH]; intros fuel' p count Hp Hle; [lia |].
  destruct fuel' as [|fuel']; [lia |]. simpl.
  destruct (strstr p term) as [q|] eqn:Hq; [|done].
  apply strstr_Some in Hq as [Hs [skipped ->]].
  apply starts_with_length in Hs. rewrite length_app in Hp.
  assert (0 < length term)%nat by (destruct term; [done | simpl; lia]).
  apply IH; [rewrite length_drop |]; lia.
Qed.

(** The recursion of the scan: no occurrence gives zero; otherwise one
    more than the count in what follows the first occurrence, so that the
    occurrences counted do not overlap. *)
Lemma count_loop_shift fuel p term count :
  count_loop fuel p term (count + 1) = 1 + count_loop fuel p term count.
Proof.
  revert p count. induction fuel as [|fuel IH]; intros p count; simpl; [lia |].
  destruct (strstr p term); [|lia]. by rewrite IH.
Qed.

Lemma count_occurrences_unfold text term :
  term ≠ [] →
  count_occurrences text term =
  match strstr text term with
  | None => 0
  | Some q => 1 + count_occurrences (drop (length term) q) term
  end.
Proof.
  intros Hterm. destruct term as [|a term]; [done |].
  unfold count_occurrences.
  change (count_loop (S (length text)) text (a :: term) 0)
    with (match strstr text (a :: term) with
          | None => 0
          | Some q => count_loop (length text) (drop (length (a :: term)) q)
                                 (a :: term) (0 + 1)
          end).
  destruct (strstr text (a :: term)) as [q|] eqn:Hq; [|done].
  apply strstr_Some in Hq as [Hs [skipped ->]].
  apply starts_with_length in Hs.
  rewrite count_loop_shift. f_equal.
  apply count_loop_fuel; [done | lia |].
  rewrite length_drop, length_app. simpl in *. lia.
Qed.

Lemma count_loop_nonneg fuel p term count :
  0 ≤ count → 0 ≤ count_loop fuel p term count.
Proof.
  revert p count. induction fuel as [|fuel IH]; intros p count Hc; simpl; [done |].
  destruct (strstr p term); [apply IH; lia | done].
Qed.

Lemma count_occurrences_nonneg text term : 0 ≤ count_occurrences text term.
Proof.
  unfold count_occurrences. destruct term; [done |].
  by apply count_loop_nonneg.
Qed.

(** ** Order facts of the arithmetic interface *)

Section FloatFacts.
Context `{F : FloatOps} `{!FloatLaws F}.

Lemma fleb_refl a : fleb a a = true.
Proof. unfold fleb. by rewrite fltb_irrefl. Qed.

Lemma fltb_asym a b : fltb a b = true → fltb b a = false.
Proof.
  intros Hab. apply not_true_iff_false. intros Hba.
  pose proof (fltb_trans _ _ _ Hab Hba) as Haa. by rewrite fltb_irrefl in Haa.
Qed.

Lemma fleb_trans a b c : fleb a b = true → fleb b c = true → fleb a c = true.
Proof.
  unfold fleb. rewrite !negb_true_iff. intros Hba Hcb.
  apply not_true_iff_false. intros Hca.
  destruct (fltb_negtrans c b a Hca); congruence.
Qed.

Lemma fltb_fleb a b : fltb a b = true → fleb a b = true.
Proof. intros Hab. unfold fleb. by rewrite fltb_asym. Qed.

Lemma fltb_fleb_trans a b c : fltb a b = true → fleb b c = true → fltb a c = true.
Proof.
  unfold fleb. rewrite negb_true_iff. intros Hab Hcb.
  destruct (fltb_negtrans a c b Hab); congruence.
Qed.

Lemma fone_nonneg : fleb fzero fone = true.
Proof. by apply f_of_Z_nonneg. Qed.
End FloatFacts.

(** ** Ranking *)

(** The scoring rule in the words of the specification. *)
Section RankingSpec.
Context `{FloatOps} `{Limits}.

Definition lowered_title (doc : search_result_t) : cstring :=
  to_lower_inplace (strncpy (title doc) (MAX_TITLE_LENGTH - 1)).
Definition lowered_body (doc : search_result_t) : cstring :=
  to_lower_inplace (strncpy (description doc) (MAX_DESCRIPTION_LENGTH - 1)).

(** Title occurrences weigh 3, body occurrences 1. *)
Definition spec_token_weight (doc : search_result_t) (term : cstring) : Z :=
  count_occurrences (lowered_title doc) term * 3
  + count_occurrences (lowered_body doc) term * 1.

Definition spec_token_matches (doc : search_result_t) (term : cstring) : Prop :=
  0 < count_occurrences (lowered_title doc) term ∨
  0 < count_occurrences (lowered_body doc) term.

#[global] Instance spec_token_matches_dec doc term :
  Decision (spec_token_matches doc term).
Proof. unfold spec_token_matches. apply _. Defined.

(** The sum over the tokens, accumulated from [0.0f] in token order. *)
Definition spec_raw_score (tokens : list cstring) (doc : search_result_t)
    : float :=
  foldl fadd fzero (map (λ term, f_of_Z (spec_token_weight doc term)) tokens).

Definition spec_matched_token_count (tokens : list cstring)
    (doc : search_result_t) : Z :=
  Z.of_nat (length (filter (spec_token_matches doc) tokens)).

(** The raw score, times the coverage bonus when there are two tokens or
    more. *)
Definition spec_score (tokens : list cstring) (doc : search_result_t) : float :=
  if decide (1 < Z.of_nat (length tokens)) then
    fmul (spec_raw_score tokens doc)
         (fadd fone (fdiv (f_of_Z (spec_matched_token_count tokens doc))
                          (f_of_Z (Z.of_nat (length tokens)))))
  else spec_raw_score tokens doc.

(** [m] is the maximum of the scores, floored at [0.001f]. *)
Definition is_floored_max (scores : list float) (m : float) : Prop :=
  fleb (f_lit 1 1000) m = true ∧
  Forall (λ s, fleb s m = true) scores ∧
  (m = f_lit 1 1000 ∨ m ∈ scores).
End RankingSpec.

Section RankingProperties.
Context `{F : FloatOps} `{!FloatLaws F} `{Qsort} `{Limits}.

Lemma score_token_loop doc tokens acc :
  foldl (score_token (lowered_title doc) (lowered_body doc)) acc tokens =
  (foldl fadd acc.1 (map (λ term, f_of_Z (spec_token_weight doc term)) tokens),
   acc.2 + Z.of_nat (length (filter (spec_token_matches doc) tokens))).
Proof.
  revert acc. induction tokens as [|term tokens IH]; intros [s m].
  - simpl. by rewrite Z.add_0_r.
  - cbn [foldl map]. rewrite IH. unfold score_token. cbn [fst snd].
    f_equal.
    + unfold spec_token_weight at 2. by rewrite Z.mul_1_r.
    + destruct (decide (spec_token_matches doc term)) as [Hm|Hm].
      * rewrite filter_cons_True by done.
        replace ((0 <? _) || (0 <? _)) with true; [simpl; lia |].
        symmetry. apply orb_true_iff. rewrite !Z.ltb_lt. exact Hm.
      * rewrite filter_cons_False by done.
        replace ((0 <? _) || (0 <? _)) with false; [done |].
        symmetry. apply not_true_iff_false.
        rewrite orb_true_iff, !Z.ltb_lt. exact Hm.
Qed.

(** The document loop computes the score of the specification. *)
Lemma score_document_spec tokens doc :
  score_document tokens doc = spec_score tokens doc.
Proof.
  unfold score_document, spec_score.
  fold (lowered_title doc) (lowered_body doc).
  rewrite score_token_loop. cbn [fst snd]. rewrite Z.add_0_l.
  fold (spec_raw_score tokens doc) (spec_matched_token_count tokens doc).
  destruct (Z.ltb_spec 1 (Z.of_nat (length tokens)));
    destruct (decide (1 < Z.of_nat (length tokens))); done || lia.
Qed.

Lemma scored_documents_spec query st :
  scored_documents query st =
  map (λ doc, set_relevance doc
                (fdiv (spec_score (query_tokens query) doc)
                      (max_raw_score (map (spec_score (query_tokens query))
                                          (catalog st)))))
      (catalog st).
Proof.
  unfold scored_documents.
  rewrite (map_ext _ _ (score_document_spec (query_tokens query))).
  generalize (max_raw_score (map (spec_score (query_tokens query)) (catalog st))).
  intros m. induction (catalog st) as [|doc docs IH]; simpl; [done |].
  by rewrite IH.
Qed.

Lemma fsum_nonneg (l : list float) a :
  fleb fzero a = true → Forall (λ s, fleb fzero s = true) l →
  fleb fzero (foldl fadd a l) = true.
Proof.
  intros Ha Hl. revert a Ha. induction Hl as [|s l Hs Hl IH]; intros a Ha; [done |].
  simpl. apply IH. by apply fadd_nonneg.
Qed.

Lemma spec_score_nonneg tokens doc : fleb fzero (spec_score tokens doc) = true.
Proof.
  assert (Hraw : fleb fzero (spec_raw_score tokens doc) = true).
  { apply fsum_nonneg; [apply fleb_refl |].
    apply Forall_map, Forall_forall. intros term _. simpl. apply f_of_Z_nonneg.
    unfold spec_token_weight.
    pose proof (count_occurrences_nonneg (lowered_title doc) term).
    pose proof (count_occurrences_nonneg (lowered_body doc) term). lia. }
  unfold spec_score. destruct (decide _) as [Hn|]; [|done].
  apply fmul_nonneg; [done |]. apply fadd_nonneg; [apply fone_nonneg |].
  apply fdiv_nonneg; [|apply f_of_Z_pos; lia].
  apply f_of_Z_nonneg. unfold spec_matched_token_count. lia.
Qed.

(** The maximum loop and the floor. *)
Lemma max_raw_score_spec scores : is_floored_max scores (max_raw_score scores).
Proof.
  unfold max_raw_score.
  assert (Hloop : ∀ m0,
    let m := foldl (λ m s, if fgtb s m then s else m) m0 scores in
    fleb m0 m = true ∧ Forall (λ s, fleb s m = true) scores ∧
    (m = m0 ∨ m ∈ scores)).
  { induction scores as [|s scores IH]; intros m0; cbn [foldl].
    - split; [apply fleb_refl |]. split; [constructor | by left].
    - destruct (fgtb s m0) eqn:Hlt; unfold fgtb in Hlt.
      + destruct (IH s) as (Hs & Hall & Hin). split; [|split].
        * eapply fleb_trans; [by apply fltb_fleb | done].
        * by constructor.
        * right. destruct Hin as [->|Hin]; [by left | by right].
      + destruct (IH m0) as (Hm0 & Hall & Hin). split; [done |]. split.
        * constructor; [|done]. eapply fleb_trans; [|exact Hm0].
          unfold fleb. by rewrite Hlt.
        * destruct Hin as [->|Hin]; [by left | right; by right]. }
  destruct (Hloop fzero) as (_ & Hall & Hin).
  set (m := foldl _ fzero scores) in *.
  destruct (fltb m (f_lit 1 1000)) eqn:Hlt.
  - split; [apply fleb_refl |]. split; [|by left].
    eapply Forall_impl; [exact Hall |]. simpl. intros s Hs.
    eapply fleb_trans; [exact Hs | by apply fltb_fleb].
  - split; [unfold fleb; by rewrite Hlt |]. split; [done |].
    destruct Hin as [Hm|Hin]; [|by right]. exfalso.
    pose proof (f_lit_pos 1 1000 ltac:(lia) ltac:(lia)) as Hpos.
    rewrite Hm in Hlt. congruence.
Qed.

Lemma floored_max_pos scores m : is_floored_max scores m → fltb fzero m = true.
Proof.
  intros (Heps & _ & _). eapply fltb_fleb_trans; [|exact Heps].
  apply f_lit_pos; lia.
Qed.


End RankingProperties.

Section QueryProperties.
Context `{F : FloatOps} `{!FloatLaws F} `{Qsort} `{Limits}.

Lemma cmp_results_descending_le a b :
  cmp_results_descending a b ≤ 0 ↔
  fleb (relevance_score b) (relevance_score a) = true.
Proof.
  unfold cmp_results_descending, fgtb, fleb.
  destruct (fltb (relevance_score a) (relevance_score b)) eqn:Hab; simpl.
  - split; [lia | done].
  - destruct (fltb (relevance_score b) (relevance_score a)); split; done || lia.
Qed.

Lemma cmp_results_descending_total : cmp_total cmp_results_descending.
Proof.
  intros a b. rewrite !cmp_results_descending_le. unfold fleb.
  destruct (fltb (relevance_score b) (relevance_score a)) eqn:Hba; [|by right].
  left. by rewrite fltb_asym.
Qed.

Lemma cmp_results_descending_trans : cmp_trans cmp_results_descending.
Proof.
  intros a b c. rewrite !cmp_results_descending_le. intros Hab Hbc.
  by apply fleb_trans with (relevance_score b).
Qed.

Lemma StronglySorted_take {A} (R : relation A) n l :
  StronglySorted R l → StronglySorted R (take n l).
Proof.
  intros Hs. rewrite <-(take_drop n l) in Hs.
  by apply StronglySorted_app_1_l in Hs.
Qed.


End QueryProperties.

Section QueryStatistics.
Context `{FloatOps} `{Qsort} `{Limits}.

(** [ms] as [search_and_rank] computes it from the two clock readings. *)
Definition elapsed_ms (t0 t1 : Z) : float :=
  fmul (fdiv (f_of_Z (t1 - t0)) (f_of_Z CLOCKS_PER_SEC)) (f_of_Z 1000).

(** C9, as the code has it. A call of search_and_rank on an initialised
    engine with a non-empty catalog and a positive max_results adds one to
    the query count, folds the elapsed time into the running mean over the
    new count and logs one entry with the number of results; a call that
    returns early (max_results <= 0, engine not initialised, or empty
    catalog) returns no result and leaves the statistics and the log as
    they were. *)
Theorem search_and_rank_statistics
    (query : cstring) (max_results t0 t1 : Z) (st : search_engine_t) :
  let r := search_and_rank query max_results t0 t1 st in
  let scoring :=
    g_search_engine_initialized st = true ∧ 0 < max_results ∧
    g_document_count st ≠ 0 in
  (scoring →
     g_total_queries r.2 = wrap_int (g_total_queries st + 1) ∧
     g_avg_response_time r.2 =
       fdiv (fadd (fmul (g_avg_response_time st)
                        (f_of_Z (wrap_int (g_total_queries r.2 - 1))))
                  (elapsed_ms t0 t1))
            (f_of_Z (g_total_queries r.2)) ∧
     search_log r.2 =
       search_log st ++
       [SearchLogEntry query (Z.of_nat (length r.1)) (elapsed_ms t0 t1)] ∧
     length r.1 = (Z.to_nat max_results `min` length (catalog st))%nat) ∧
  (¬ scoring → r = ([], st)).
Proof.
  intros r scoring. subst r scoring. unfold search_and_rank. split.
  - intros (-> & Hmax & Hcount).
    destruct (Z.leb_spec max_results 0); [lia |].
    destruct (Z.eqb_spec (g_document_count st) 0); [done |].
    cbn [negb fst snd g_total_queries g_avg_response_time search_log].
    repeat split.
    rewrite length_take, (Permutation_length (qsort_perm _ _ _)).
    unfold scored_documents. rewrite length_zip_with, length_map. lia.
  - intros Hn.
    destruct (Z.leb_spec max_results 0); [done |].
    destruct (g_search_engine_initialized st) eqn:Hinit; [|done].
    destruct (Z.eqb_spec (g_document_count st) 0); [done |].
    destruct Hn. done.
Qed.

End QueryStatistics.

(** ** The autocomplete trie *)

Section TrieTraversal.
Context `{FloatOps} `{Limits}.

(** Induction on a trie: the property holds of a node when it holds of
    all its children. *)
Lemma trie_node_t_ind (P : trie_node_t → Prop) :
  (∀ cs e s sc f lu,
     Forall (λ c, match c with Some n => P n | None => True end) cs →
     P (TrieNode cs e s sc f lu)) →
  ∀ node, P node.
Proof.
  intros Hnode. fix IH 1. intros [cs e s sc f lu]. apply Hnode.
  induction cs as [|c cs IHcs]; constructor; [|exact IHcs].
  destruct c as [n|]; [apply IH | exact I].
Qed.

(** The entry a node contributes by itself. *)
Definition own_suggestion (node : trie_node_t) : list autocomplete_result_t :=
  match is_end_of_word node, suggestion node with
  | true, Some text => [result_of_node text node]
  | _, _ => []
  end.

(** Every end-of-word node below [node], the node first and then its
    children in the order of the table: the exhaustive traversal. *)
Fixpoint all_suggestions (node : trie_node_t) : list autocomplete_result_t :=
  match node with
  | TrieNode cs _ _ _ _ _ =>
      own_suggestion node ++
      (fix children_all (cs : list (option trie_node_t)) :=
         match cs with
         | [] => []
         | c :: cs' =>
             match c with
             | Some n => all_suggestions n
             | None => []
             end ++ children_all cs'
         end) cs
  end.

Definition child_suggestions (c : option trie_node_t)
    : list autocomplete_result_t :=
  match c with
  | Some n => all_suggestions n
  | None => []
  end.

Lemma all_suggestions_eq node :
  all_suggestions node =
  own_suggestion node ++ concat (map child_suggestions (children node)).
Proof.
  destruct node as [cs e s sc f lu]. cbn [all_suggestions children]. f_equal.
  induction cs as [|c cs IH]; [done |]. cbn [map concat]. by rewrite <-IH.
Qed.

(** The child loop of [collect_suggestions_from_trie]. *)
Fixpoint collect_children (cs : list (option trie_node_t))
    (max_suggestions : Z) (acc : list autocomplete_result_t)
    : list autocomplete_result_t :=
  match cs with
  | [] => acc
  | c :: cs' =>
      if Z.of_nat (length acc) <? max_suggestions then
        collect_children cs' max_suggestions
          match c with
          | Some n => collect_suggestions_from_trie n max_suggestions acc
          | None => acc
          end
      else acc
  end.

Lemma collect_suggestions_from_trie_eq node max_suggestions acc :
  collect_suggestions_from_trie node max_suggestions acc =
  if max_suggestions <=? Z.of_nat (length acc) then acc
  else collect_children (children node) max_suggestions
                        (acc ++ own_suggestion node).
Proof.
  destruct node as [cs e s sc f lu].
  cbn [collect_suggestions_from_trie children].
  destruct (max_suggestions <=? Z.of_nat (length acc)); [done |].
  assert (Hacc : (match e, s with
                  | true, Some text =>
                      acc ++ [result_of_node text (TrieNode cs e s sc f lu)]
                  | _, _ => acc
                  end) = acc ++ own_suggestion (TrieNode cs e s sc f lu)).
  { unfold own_suggestion. cbn [is_end_of_word suggestion].
    destruct e, s; by rewrite ?app_nil_r. }
  rewrite Hacc. clear Hacc.
  generalize (acc ++ own_suggestion (TrieNode cs e s sc f lu)).
  induction cs as [|c cs IH]; intros acc'; [done |].
  cbn [collect_children]. destruct (Z.of_nat (length acc') <? max_suggestions); [|done].
  apply IH.
Qed.

(** Collecting with a cap is cutting the exhaustive traversal at the cap:
    the entries kept are the first ones met, not the best ones. *)
Lemma collect_suggestions_from_trie_take node max_suggestions acc :
  collect_suggestions_from_trie node max_suggestions acc =
  acc ++ take (Z.to_nat max_suggestions - length acc) (all_suggestions node).
Proof.
  revert acc. induction node as [cs e s sc f lu IH] using trie_node_t_ind.
  intros acc. rewrite collect_suggestions_from_trie_eq, all_suggestions_eq.
  cbn [children].
  destruct (Z.leb_spec max_suggestions (Z.of_nat (length acc))) as [Hfull|Hroom].
  { replace (Z.to_nat max_suggestions - length acc)%nat with 0%nat by lia.
    by rewrite take_0, app_nil_r. }
  assert (Hown : (length (own_suggestion (TrieNode cs e s sc f lu)) ≤ 1)%nat).
  { unfold own_suggestion. cbn [is_end_of_word suggestion].
    destruct e, s; simpl; lia. }
  revert Hown. generalize (own_suggestion (TrieNode cs e s sc f lu)).
  intros own Hown.
  rewrite take_app, (take_ge own) by lia. rewrite app_assoc.
  replace (Z.to_nat max_suggestions - length acc - length own)%nat
    with (Z.to_nat max_suggestions - length (acc ++ own))%nat
    by (rewrite length_app; lia).
  generalize (acc ++ own). clear acc Hroom own Hown. intros acc.
  revert acc. induction IH as [|c cs Hc _ IHcs]; intros acc.
  - cbn [collect_children map concat]. by rewrite take_nil, app_nil_r.
  - cbn [collect_children map concat].
    destruct (Z.ltb_spec (Z.of_nat (length acc)) max_suggestions) as [Hroom|Hfull].
    + rewrite IHcs, take_app. destruct c as [n|]; cbn [child_suggestions].
      * rewrite Hc, <-app_assoc, length_app, length_take. do 2 f_equal.
        f_equal. lia.
      * by rewrite take_nil, app_nil_l, Nat.sub_0_r.
    + replace (Z.to_nat max_suggestions - length acc)%nat with 0%nat by lia.
      by rewrite take_0, app_nil_r.
Qed.

End TrieTraversal.

(** ** Characters *)

Lemma tolower_idemp c : tolower (tolower c) = tolower c.
Proof. by destruct c as [[] [] [] [] [] [] [] []]. Qed.

Lemma isalnum_code c : isalnum c = true → (char_code c < 128)%nat.
Proof. destruct c as [[] [] [] [] [] [] [] []]; vm_compute; done || lia. Qed.

Lemma char_code_inj c1 c2 : char_code c1 = char_code c2 → c1 = c2.
Proof.
  unfold char_code. intros Heq.
  by rewrite <-(ascii_nat_embedding c1), <-(ascii_nat_embedding c2), Heq.
Qed.

(** The normalised form under which [insert_suggestion_into_trie] files a
    text: lower case, with every character that is not a letter or a digit
    deleted. *)
Definition normalize_suggestion (text : cstring) : cstring :=
  filter (λ c, isalnum c = true) (map tolower text).

Lemma normalize_suggestion_cons ch text :
  normalize_suggestion (ch :: text) =
  if isalnum (tolower ch) then tolower ch :: normalize_suggestion text
  else normalize_suggestion text.
Proof.
  unfold normalize_suggestion. cbn [map].
  destruct (isalnum (tolower ch)) eqn:Hc.
  - by rewrite filter_cons_True.
  - rewrite filter_cons_False; [done |]. by rewrite Hc.
Qed.

Lemma normalize_suggestion_alnum text :
  Forall (λ c, isalnum c = true) (normalize_suggestion text).
Proof.
  unfold normalize_suggestion. apply Forall_forall.
  intros c Hc. by apply list_elem_of_filter in Hc as [? _].
Qed.

Lemma normalize_suggestion_lower text :
  map tolower (normalize_suggestion text) = normalize_suggestion text.
Proof.
  induction text as [|ch text IH]; [done |].
  rewrite normalize_suggestion_cons. destruct (isalnum (tolower ch)); [|done].
  cbn [map]. by rewrite tolower_idemp, IH.
Qed.

Section TrieInsert.
Context `{FloatOps} `{Limits}.

(** Every node has its table of 128 slots. *)
Inductive trie_wf : trie_node_t → Prop :=
| trie_wf_node cs e s sc f lu :
    length cs = 128%nat →
    (∀ i n, cs !! i = Some (Some n) → trie_wf n) →
    trie_wf (TrieNode cs e s sc f lu).

Lemma trie_wf_create : trie_wf create_trie_node.
Proof.
  constructor; [apply length_replicate |].
  intros i n Hi. apply lookup_replicate in Hi as [? _]. done.
Qed.

Lemma trie_wf_child node c n : trie_wf node → child node c = Some n → trie_wf n.
Proof.
  intros Hwf. destruct Hwf as [cs e s sc f lu _ Hcs]. unfold child. cbn [children].
  destruct (cs !! c) as [[n'|]|] eqn:Hc; [|done..].
  intros [= <-]. by eapply Hcs.
Qed.

Lemma trie_wf_next node c :
  trie_wf node → trie_wf (default create_trie_node (child node c)).
Proof.
  intros Hwf. destruct (child node c) as [n|] eqn:Hc; simpl.
  - by eapply trie_wf_child.
  - apply trie_wf_create.
Qed.

Lemma insert_from_wf node rest text sc t :
  trie_wf node → trie_wf (insert_from node rest text sc t).
Proof.
  revert node. induction rest as [|ch rest IH]; intros node Hwf.
  - destruct Hwf. by constructor.
  - cbn [insert_from]. destruct (isalnum (tolower ch)) eqn:Halnum; cbn [negb].
    + pose proof (trie_wf_next node (char_code (tolower ch)) Hwf) as Hnext.
      destruct Hwf as [cs e s sc' f lu Hlen Hcs]. cbn [children] in *.
      constructor; [by rewrite length_insert |].
      intros i n Hi.
      destruct (decide (i = char_code (tolower ch))) as [->|Hne].
      * rewrite list_lookup_insert_eq in Hi
          by (rewrite Hlen; by apply isalnum_code).
        injection Hi as <-. by apply IH.
      * rewrite list_lookup_insert_ne in Hi by done. by eapply Hcs.
    + by apply IH.
Qed.

(** The entry stored at a node, if it ends a word. *)
Definition own_entry (node : trie_node_t) : option autocomplete_result_t :=
  match is_end_of_word node, suggestion node with
  | true, Some text => Some (result_of_node text node)
  | _, _ => None
  end.

(** What the trie stores under a key: the entry of the node the key leads
    to. *)
Definition stored (node : trie_node_t) (key : cstring)
    : option autocomplete_result_t :=
  walk_prefix node key ≫= own_entry.

Lemma own_suggestion_entry node :
  own_suggestion node = option_list (own_entry node).
Proof.
  unfold own_suggestion, own_entry.
  by destruct (is_end_of_word node), (suggestion node).
Qed.

Lemma walk_prefix_app node p q :
  walk_prefix node (p ++ q) = walk_prefix node p ≫= λ n, walk_prefix n q.
Proof.
  revert node. induction p as [|ch p IH]; intros node; [done |].
  cbn [app walk_prefix]. destruct (128 <=? char_code ch)%nat; [done |].
  destruct (child node (char_code ch)); [apply IH | done].
Qed.

Lemma stored_create key : stored create_trie_node key = None.
Proof.
  unfold stored. destruct key as [|ch key]; [done |]. cbn [walk_prefix].
  destruct (128 <=? char_code ch)%nat; [done |].
  unfold child, create_trie_node. cbn [children].
  destruct (replicate 128 None !! char_code ch) as [[n|]|] eqn:Hc; [|done..].
  apply lookup_replicate in Hc as [? _]. done.
Qed.

(** After an insertion the normalised form of the text leads to a node
    that ends a word and holds the text and the score. *)
Lemma walk_insert_same node rest text sc t :
  trie_wf node →
  ∃ n, walk_prefix (insert_from node rest text sc t) (normalize_suggestion rest)
       = Some n ∧
       is_end_of_word n = true ∧ suggestion n = Some text ∧
       score n = sc ∧ last_used n = t.
Proof.
  revert node. induction rest as [|ch rest IH]; intros node Hwf.
  - eexists. by split.
  - rewrite normalize_suggestion_cons. cbn [insert_from].
    destruct (isalnum (tolower ch)) eqn:Halnum; cbn [negb]; [|by apply IH].
    pose proof (isalnum_code _ Halnum) as Hcode.
    destruct (IH _ (trie_wf_next node (char_code (tolower ch)) Hwf))
      as (n & Hwalk & Hn).
    exists n. split; [|done]. cbn [walk_prefix].
    destruct (Nat.leb_spec 128 (char_code (tolower ch))); [lia |].
    unfold child at 1. cbn [children].
    destruct Hwf as [cs e s sc' f lu Hlen Hcs]. cbn [children].
    rewrite list_lookup_insert_eq by lia. exact Hwalk.
Qed.

(** An insertion changes nothing of what is stored under the other keys. *)
Lemma stored_insert_other node rest text sc t key :
  trie_wf node → key ≠ normalize_suggestion rest →
  stored (insert_from node rest text sc t) key = stored node key.
Proof.
  revert node key. induction rest as [|ch rest IH]; intros node key Hwf Hkey.
  - destruct key as [|k key]; [done |]. by destruct node.
  - rewrite normalize_suggestion_cons in Hkey. cbn [insert_from].
    destruct (isalnum (tolower ch)) eqn:Halnum; cbn [negb]; [|by apply IH].
    pose proof (isalnum_code _ Halnum) as Hcode.
    pose proof (trie_wf_next node (char_code (tolower ch)) Hwf) as Hnext.
    destruct key as [|k key]; [by destruct node |].
    unfold stored. cbn [walk_prefix].
    destruct (128 <=? char_code k)%nat; [done |].
    unfold child at 1 3. cbn [children].
    destruct (decide (char_code k = char_code (tolower ch))) as [Hk|Hk].
    + rewrite Hk. rewrite list_lookup_insert_eq
        by (destruct Hwf as [cs e s sc' f lu Hlen Hcs]; cbn [children]; lia).
      apply char_code_inj in Hk as ->.
      assert (Hkey' : key ≠ normalize_suggestion rest) by congruence.
      pose proof (IH _ key Hnext Hkey') as Hst. unfold stored in Hst.
      rewrite Hst. unfold child.
      destruct (children node !! char_code (tolower ch)) as [[n|]|]; simpl;
        [done | apply stored_create..].
    + by rewrite list_lookup_insert_ne.
Qed.

(** A stored entry is met by the exhaustive traversal from any node on
    the way to it. *)
Lemma stored_in_all_suggestions node key r :
  stored node key = Some r → r ∈ all_suggestions node.
Proof.
  revert node. induction key as [|k key IH]; intros node; unfold stored.
  - cbn [walk_prefix mbind option_bind]. intros Hr.
    rewrite all_suggestions_eq, own_suggestion_entry, Hr.
    apply elem_of_app. left. by apply list_elem_of_singleton.
  - cbn [walk_prefix]. destruct (128 <=? char_code k)%nat; [done |].
    destruct (child node (char_code k)) as [n|] eqn:Hc; [|done].
    intros Hr%IH. rewrite all_suggestions_eq. apply elem_of_app. right.
    unfold child in Hc.
    destruct (children node !! char_code k) as [[n'|]|] eqn:Hl; [|done..].
    injection Hc as ->. apply list_elem_of_In, in_concat.
    exists (all_suggestions n). split; [|by apply list_elem_of_In].
    apply in_map_iff. exists (Some n). split; [done |].
    apply list_elem_of_In. by eapply list_elem_of_lookup_2.
Qed.

End TrieInsert.

(** ** Suggestions *)

Section SuggestProperties.
Context `{FloatOps} `{Qsort} `{Limits}.

(** A call of [add_autocomplete_suggestion]. *)
Record insertion := Insertion {
  ins_text : cstring;
  ins_score : float;
  ins_source : autocomplete_source_t;
  ins_time : Z;
}.

Definition run_insertion (ctx : autocomplete_context_t) (ins : insertion)
    : autocomplete_context_t :=
  (add_autocomplete_suggestion (ins_text ins) (ins_score ins)
                               (ins_source ins) (ins_time ins) ctx).2.

Definition run_insertions (ctx : autocomplete_context_t)
    (l : list insertion) : autocomplete_context_t :=
  foldl run_insertion ctx l.

Lemma run_insertion_root ctx ins :
  root (run_insertion ctx ins) =
  match ins_text ins with
  | [] => root ctx
  | _ =>
      insert_from (root ctx) (ins_text ins) (ins_text ins)
        (if fgtb (ins_score ins) fzero then ins_score ins
         else calculate_suggestion_score (ins_text ins) (ins_source ins))
        (ins_time ins)
  end.
Proof.
  unfold run_insertion, add_autocomplete_suggestion.
  by destruct (ins_text ins).
Qed.

Lemma run_insertion_wf ctx ins :
  trie_wf (root ctx) → trie_wf (root (run_insertion ctx ins)).
Proof.
  intros Hwf. rewrite run_insertion_root.
  destruct (ins_text ins); [done | by apply insert_from_wf].
Qed.

Lemma run_insertions_wf ctx l :
  trie_wf (root ctx) → trie_wf (root (run_insertions ctx l)).
Proof.
  intros Hwf. apply (foldl_preserves (λ ctx, trie_wf (root ctx))); [|done].
  intros. by apply run_insertion_wf.
Qed.

Lemma run_insertion_stored_same ctx ins :
  trie_wf (root ctx) → ins_text ins ≠ [] →
  ∃ r, stored (root (run_insertion ctx ins))
              (normalize_suggestion (ins_text ins)) = Some r ∧
       res_suggestion r = strncpy (ins_text ins) (MAX_SUGGESTION_LENGTH - 1).
Proof.
  intros Hwf Htext. rewrite run_insertion_root.
  destruct (ins_text ins) as [|ch text] eqn:Heq; [done |].
  match goal with |- context [insert_from _ _ _ ?sc ?t] =>
    destruct (walk_insert_same (root ctx) (ch :: text) (ch :: text) sc t Hwf)
      as (n & Hwalk & Hend & Hsug & _) end.
  unfold stored. rewrite Hwalk. cbn [mbind option_bind].
  unfold own_entry. rewrite Hend, Hsug. by eexists.
Qed.

Lemma run_insertion_stored_other ctx ins key :
  trie_wf (root ctx) → key ≠ normalize_suggestion (ins_text ins) →
  stored (root (run_insertion ctx ins)) key = stored (root ctx) key.
Proof.
  intros Hwf Hkey. rewrite run_insertion_root.
  destruct (ins_text ins) as [|ch text] eqn:Heq; [done |].
  by apply stored_insert_other.
Qed.

(** What is stored under a key stays stored, possibly with a newer text. *)
Lemma run_insertions_stored_is_Some ctx l key :
  trie_wf (root ctx) → is_Some (stored (root ctx) key) →
  is_Some (stored (root (run_insertions ctx l)) key).
Proof.
  revert ctx. induction l as [|ins l IH]; intros ctx Hwf Hst; [done |].
  cbn [run_insertions foldl]. apply IH; [by apply run_insertion_wf |].
  destruct (decide (key = normalize_suggestion (ins_text ins))) as [->|Hne].
  - destruct (ins_text ins) as [|ch text] eqn:Heq.
    + by rewrite run_insertion_root, Heq.
    + destruct (run_insertion_stored_same ctx ins Hwf) as (r & Hr & _);
        [by rewrite Heq |].
      rewrite Heq in Hr. by rewrite Hr.
  - by rewrite run_insertion_stored_other.
Qed.

(** The last text inserted under a key is the one stored. *)
Lemma run_insertions_stored_last ctx before ins after :
  trie_wf (root ctx) → ins_text ins ≠ [] →
  Forall (λ later, normalize_suggestion (ins_text later)
                   ≠ normalize_suggestion (ins_text ins)) after →
  ∃ r, stored (root (run_insertions ctx (before ++ ins :: after)))
              (normalize_suggestion (ins_text ins)) = Some r ∧
       res_suggestion r = strncpy (ins_text ins) (MAX_SUGGESTION_LENGTH - 1).
Proof.
  intros Hwf Htext Hafter. unfold run_insertions.
  rewrite foldl_app. cbn [foldl].
  pose proof (run_insertions_wf ctx before Hwf) as Hwf1.
  unfold run_insertions in Hwf1.
  destruct (run_insertion_stored_same _ ins Hwf1 Htext) as (r & Hr & Hs).
  exists r. split; [|done].
  pose proof (run_insertion_wf _ ins Hwf1) as Hwf2.
  revert Hr Hwf2. generalize (run_insertion (foldl run_insertion ctx before) ins).
  induction Hafter as [|later after Hlater _ IH]; intros ctx' Hr Hwf'; [done |].
  cbn [foldl]. apply IH; [|by apply run_insertion_wf].
  rewrite run_insertion_stored_other; [done | done | congruence].
Qed.

Lemma get_autocomplete_suggestions_at query max ctx node :
  walk_prefix (root ctx) (map tolower (strncpy query (MAX_QUERY_LENGTH - 1)))
    = Some node →
  get_autocomplete_suggestions query max ctx =
  qsort compare_suggestions (take (Z.to_nat max) (all_suggestions node)).
Proof.
  intros Hwalk. unfold get_autocomplete_suggestions. rewrite Hwalk.
  rewrite collect_suggestions_from_trie_take. cbn [app length].
  by rewrite Nat.sub_0_r.
Qed.

(** The entries of the traversal are the stored entries. *)
Lemma all_suggestions_stored node r :
  trie_wf node → r ∈ all_suggestions node → ∃ key, stored node key = Some r.
Proof.
  revert r. induction node as [cs e s sc f lu IH] using trie_node_t_ind.
  intros r Hwf. rewrite all_suggestions_eq, own_suggestion_entry.
  intros [Hown|Hsub]%elem_of_app.
  - exists []. unfold stored. cbn [walk_prefix mbind option_bind].
    destruct (own_entry _); [|by apply not_elem_of_nil in Hown].
    apply list_elem_of_singleton in Hown. by subst.
  - cbn [children] in Hsub.
    apply list_elem_of_In, in_concat in Hsub as (l & Hl & Hr).
    apply in_map_iff in Hl as (c & <- & Hc).
    destruct c as [n|]; [|done]. cbn [child_suggestions] in Hr.
    apply list_elem_of_In, list_elem_of_lookup in Hc as [i Hi].
    inversion Hwf as [cs' e' s' sc' f' lu' Hlen Hcs]; subst.
    rewrite Forall_forall in IH.
    destruct (IH (Some n) (list_elem_of_lookup_2 _ _ _ Hi) r) as [key Hkey];
      [by eapply Hcs | by apply list_elem_of_In |].
    pose proof (lookup_lt_Some _ _ _ Hi) as Hlt.
    exists (ascii_of_nat i :: key). unfold stored. cbn [walk_prefix].
    assert (Hcode : char_code (ascii_of_nat i) = i)
      by (unfold char_code; apply nat_ascii_embedding; lia).
    rewrite Hcode. destruct (Nat.leb_spec 128 i); [lia |].
    unfold child. cbn [children]. by rewrite Hi.
Qed.

End SuggestProperties.

Section SuggestTheorems.
Context `{FloatOps} `{Qsort} `{Limits}.


(** C3, as the code has it. Let S be a text inserted into the trie and
    not followed by the insertion of another text of the same normalised
    form, and P a non-empty prefix of the normalised form of S that fits
    the query buffer. The query P leads to a node, and
    get_autocomplete_suggestions (P, max) includes S (cut to the
    suggestion buffer) whenever max is at least the number of all the
    suggestions stored below that node, whatever their scores: the cap is
    applied while collecting, before the sort by score. *)
Theorem suggest_contains_inserted
    (before after : list insertion) (ins : insertion) (P : cstring) (max : Z) :
  let text := ins_text ins in
  let ctx := run_insertions init_autocomplete_system (before ++ ins :: after) in
  Forall (λ later, normalize_suggestion (ins_text later)
                   ≠ normalize_suggestion text) after →
  P ≠ [] → P `prefix_of` normalize_suggestion text →
  (length P < MAX_QUERY_LENGTH)%nat →
  ∃ node,
    walk_prefix (root ctx) P = Some node ∧
    (Z.of_nat (length (all_suggestions node)) ≤ max →
     strncpy text (MAX_SUGGESTION_LENGTH - 1)
       ∈ map res_suggestion (get_autocomplete_suggestions P max ctx)).
Proof.
  intros text ctx Hafter HP [rest Hrest] Hlen.
  assert (HS : text ≠ []).
  { intros HS. rewrite HS in Hrest. by destruct P. }
  destruct (run_insertions_stored_last init_autocomplete_system before ins after
              trie_wf_create HS Hafter) as (r & Hr & Hsug).
  fold ctx text in Hr, Hsug. rewrite Hrest in Hr. unfold stored in Hr.
  rewrite walk_prefix_app in Hr.
  destruct (walk_prefix (root ctx) P) as [node|] eqn:Hwalk; [|done].
  cbn [mbind option_bind] in Hr.
  exists node. split; [done |]. intros Hmax.
  assert (Hin : r ∈ all_suggestions node)
    by (by apply stored_in_all_suggestions with rest).
  assert (Hquery : map tolower (strncpy P (MAX_QUERY_LENGTH - 1)) = P).
  { unfold strncpy. rewrite take_ge by lia.
    pose proof (normalize_suggestion_lower text) as Hlow.
    rewrite Hrest, map_app in Hlow.
    apply app_inj_1 in Hlow as [? _]; [done | by rewrite length_map]. }
  rewrite (get_autocomplete_suggestions_at P max ctx node)
    by (by rewrite Hquery).
  rewrite take_ge by lia. rewrite <-Hsug.
  apply list_elem_of_fmap_2. by rewrite qsort_perm.
Qed.

End SuggestTheorems.

(** * Concrete runs

    The scenarios of the specification and instances of the theorems, with
    exact rational arithmetic, insertion sort for [qsort] and the sample
    constants. *)

Section Concrete.
#[local] Existing Instance Q_float.
#[local] Existing Instance Q_float_laws.
#[local] Existing Instance stable_qsort.
#[local] Existing Instance sample_limits.

Definition suggest (l : list insertion) (query : string) (max : Z)
    : list (string * Q) :=
  map (λ r, (string_of_list_ascii (res_suggestion r), res_score r))
      (get_autocomplete_suggestions (c_str query) max
         (run_insertions init_autocomplete_system l)).

Definition titled (text : string) (given : Q) : insertion :=
  Insertion (c_str text) given AC_SOURCE_DOCUMENT_TITLES 0.

(** Scenario 1: the default score of a document title. *)
Example suggest_hello :
  suggest [titled "hello" 0] "he" 10 = [("hello"%string, 3 # 5)].
Proof. by vm_compute. Qed.

(** Scenario 2: the higher score first. *)
Example suggest_cat_car :
  suggest [titled "cat" (9 # 10); titled "car" (5 # 10)] "ca" 10
  = [("cat"%string, 9 # 10); ("car"%string, 5 # 10)].
Proof. by vm_compute. Qed.

(** Punctuation is deleted on insertion, and the text itself is kept. *)
Example suggest_dont :
  suggest [titled "Don't" (9 # 10)] "dont" 10 = [("Don't"%string, 9 # 10)].
Proof. by vm_compute. Qed.

Definition two_suggestions : list insertion :=
  [titled "aa" (5 # 10); titled "ab" (9 # 10)].

(** C3, prefix containment of the specification, does not hold. After the insertion of "aa" with score 0.5 and
    "ab" with score 0.9, both match the prefix "a", and "ab" is the only
    match whose score is at least its own; yet with max = 1 the result is
    "aa" alone: the traversal meets "aa" first and stops at the cap, and
    the sort by score comes after. *)
Lemma suggest_drops_best_match :
  let ctx := run_insertions init_autocomplete_system two_suggestions in
  let results := get_autocomplete_suggestions (c_str "a") 1 ctx in
  c_str "a" `prefix_of` normalize_suggestion (c_str "ab") ∧
  (∃ node, walk_prefix (root ctx) (c_str "a") = Some node ∧
           map res_suggestion
               (filter (λ r, fleb (9 # 10) (res_score r) = true)
                       (all_suggestions node))
           = [c_str "ab"]) ∧
  map res_suggestion results = [c_str "aa"] ∧
  c_str "ab" ∉ map res_suggestion results.
Proof.
  split; [by exists (c_str "b") |]. split.
  - eexists. split; [by vm_compute | by vm_compute].
  - assert (Hres : map res_suggestion
              (get_autocomplete_suggestions (c_str "a") 1
                 (run_insertions init_autocomplete_system two_suggestions))
            = [c_str "aa"]) by (by vm_compute).
    split; [done |]. rewrite Hres. by intros ?%list_elem_of_singleton.
Qed.

Lemma suggest_contains_inserted_witness :
  let before := [titled "aa" (5 # 10)] in
  let ins := titled "Don't" (9 # 10) in
  let after := [titled "car" 0] in
  let ctx := run_insertions init_autocomplete_system (before ++ ins :: after) in
  Forall (λ later, normalize_suggestion (ins_text later)
                   ≠ normalize_suggestion (ins_text ins)) after ∧
  c_str "do" ≠ [] ∧
  c_str "do" `prefix_of` normalize_suggestion (ins_text ins) ∧
  (length (c_str "do") < MAX_QUERY_LENGTH)%nat ∧
  ∃ node,
    walk_prefix (root ctx) (c_str "do") = Some node ∧
    (Z.of_nat (length (all_suggestions node)) ≤ 10 →
     strncpy (ins_text ins) (MAX_SUGGESTION_LENGTH - 1)
       ∈ map res_suggestion (get_autocomplete_suggestions (c_str "do") 10 ctx)).
Proof.
  intros before ins after ctx.
  assert (Hafter : Forall (λ later, normalize_suggestion (ins_text later)
                            ≠ normalize_suggestion (ins_text ins)) after).
  { repeat constructor. vm_compute. discriminate. }
  assert (HP : c_str "do" ≠ []) by discriminate.
  assert (Hpre : c_str "do" `prefix_of` normalize_suggestion (ins_text ins)).
  { exists (c_str "nt"). reflexivity. }
  assert (Hlen : (length (c_str "do") < MAX_QUERY_LENGTH)%nat).
  { vm_compute. lia. }
  split; [exact Hafter |]. split; [exact HP |]. split; [exact Hpre |].
  split; [exact Hlen |].
  exact (suggest_contains_inserted before after ins (c_str "do") 10
           Hafter HP Hpre Hlen).
Defined.

(** *** The search engine *)

Definition doc_notes : search_result_t :=
  SearchResult (c_str "notes.txt") (c_str "alpha beta alpha")
               (c_str "local-file") 1 0%Q 0 0 0%Q.
Definition doc_todo : search_result_t :=
  SearchResult (c_str "todo.txt") (c_str "beta beta")
               (c_str "local-file") 2 0%Q 0 0 0%Q.

(** An initialised engine to which notes.txt, then todo.txt were added. *)
Definition two_documents : search_engine_t :=
  foldl run_catalog_add (init_search_engine search_engine_start)
        [AddVirtualDocument doc_notes; AddVirtualDocument doc_todo].

Definition ranked (results : list search_result_t) : list (string * Q) :=
  map (λ r, (string_of_list_ascii (title r), relevance_score r)) results.

(** Scenario 3. *)
Example query_alpha :
  ranked (search_and_rank (c_str "alpha") 10 0 5 two_documents).1
  = [("notes.txt"%string, 1%Q); ("todo.txt"%string, 0%Q)].
Proof. by vm_compute. Qed.

(** Two tokens: notes.txt scores (2 + 1) * (1 + 2/2) = 6 and todo.txt
    2 * (1 + 1/2) = 3. *)
Example query_two_tokens :
  ranked (search_and_rank (c_str "Beta  alpha") 10 0 5 two_documents).1
  = [("notes.txt"%string, 1%Q); ("todo.txt"%string, 1 # 2)].
Proof. by vm_compute. Qed.

(** Occurrences are counted without overlap. *)
Example count_aa : count_occurrences (c_str "aaaaa") (c_str "aa") = 2.
Proof. by vm_compute. Qed.




(** C9, one sample and one log entry for every query, does not hold. On an initialised engine with an empty catalog a
    query returns no result, and records no statistics sample and no log
    entry: the query count stays 0 and the log stays empty. *)
Lemma query_on_empty_catalog_records_nothing :
  let st := init_search_engine search_engine_start in
  let r := search_and_rank (c_str "alpha") 10 0 5 st in
  g_search_engine_initialized st = true ∧
  r.1 = [] ∧
  g_total_queries r.2 = 0 ∧
  g_total_queries r.2 ≠ wrap_int (g_total_queries st + 1) ∧
  search_log r.2 = [].
Proof. repeat split; try reflexivity. vm_compute. discriminate. Qed.

(** A query that matches nothing in a non-empty catalog still returns
    every document, with relevance 0, and is recorded. *)
Example query_without_match :
  let r := search_and_rank (c_str "zzz") 10 0 5 two_documents in
  ranked r.1 = [("notes.txt"%string, 0%Q); ("todo.txt"%string, 0%Q)] ∧
  g_total_queries r.2 = 1 ∧ length (search_log r.2) = 1%nat.
Proof. repeat split; by vm_compute. Qed.

(** *** The snapshot store *)

Definition sample_env : environment :=
  mkEnvironment
    (λ path,
       if bool_decide (path = c_str "/repo/f1.txt") then Some (c_str "alpha beta")
       else if bool_decide (path = c_str "/repo/f2.txt") then Some (c_str "gamma")
       else if bool_decide (path = c_str ".mgit_work/f1.txt")
            then Some (c_str "alpha edited")
       else if bool_decide (path = c_str ".mgit_work/f2.txt")
            then Some (c_str "gamma")
       else None)
    [c_str "."; c_str ".."; c_str "f1.txt"; c_str "f2.txt"]
    (c_str "/repo") 1700000000 [].

Definition sample_ops : list store_op :=
  [Stage (c_str "f1.txt") sample_env;
   Stage (c_str "f2.txt") sample_env;
   CommitStaged (c_str "initial import") sample_env;
   CommitStaged (c_str "again") sample_env;
   SaveFromWorkingDirectory (c_str "snapshot") sample_env;
   Delete 1;
   SaveFromWorkingDirectory (c_str "later") sample_env].

(** Scenarios 4 to 6: what the operations print, the log and the counter
    at the end. *)
Example sample_run :
  let r := run_ops program_start sample_ops in
  r.1 = [FileAdded; FileAdded; CommitCreated 1; NoFilesToCommit;
         CommitCreated 2; CommitDeleted 1; CommitCreated 3] ∧
  map fst (view_log r.2) = [3; 2] ∧
  commit_count (repo r.2) = 3 ∧
  (file_count <$> view_commit 2 r.2) = Some 2 ∧
  view_commit 1 r.2 = None.
Proof. repeat split; by vm_compute. Qed.

(** The message and the file of the deleted commit 1 are still found. *)
Example deleted_commit_still_found :
  let st := (run_ops program_start sample_ops).2 in
  map (λ r, string_of_list_ascii (res_suggestion r))
      (get_autocomplete_suggestions (c_str "imp") 10 (g_autocomplete_ctx st))
  = ["import"%string] ∧
  In ("Commit #1"%string, 1%Q)
     (ranked (search_and_rank (c_str "import") 10 0 5 (search_engine st)).1).
Proof. split; [by vm_compute |]. vm_compute. tauto. Qed.

Lemma commit_ids_strictly_increase_witness :
  Z.of_nat (length sample_ops) ≤ INT_MAX ∧
  StronglySorted Z.lt
    (created_ids (run_ops (init_repository program_start) sample_ops).1).
Proof.
  assert (Hlen : Z.of_nat (length sample_ops) ≤ INT_MAX)
    by (vm_compute; discriminate).
  split; [exact Hlen |].
  exact (proj1 (commit_ids_strictly_increase program_start sample_ops Hlen)).
Defined.

Lemma delete_commit_frame_witness :
  let st := (run_ops (init_repository program_start) sample_ops).2 in
  let st' := (delete_commit 2 st).2 in
  Z.of_nat (length sample_ops) ≤ INT_MAX ∧
  view_commit 2 st' = None ∧
  commit_count (repo st') = commit_count (repo st) ∧
  g_autocomplete_ctx st' = g_autocomplete_ctx st ∧
  search_engine st' = search_engine st.
Proof.
  intros st st'.
  assert (Hlen : Z.of_nat (length sample_ops) ≤ INT_MAX)
    by (vm_compute; discriminate).
  split; [exact Hlen |].
  destruct (delete_commit_frame program_start sample_ops 2 Hlen)
    as (_ & _ & Hview & _ & Hcount & _ & Hctx & Hse & _).
  split; [exact Hview |]. split; [exact Hcount |].
  split; [exact Hctx | exact Hse].
Defined.

End Concrete.

(** The same scenarios with binary32 arithmetic: the default score is the
    float nearest to 0.6, and the relevances 1 and 0 are exact. *)
Section ConcreteBinary32.
#[local] Existing Instance binary32_float.
#[local] Existing Instance stable_qsort.
#[local] Existing Instance sample_limits.

Example suggest_hello_binary32 :
  map (λ r, (string_of_list_ascii (res_suggestion r), res_score r))
      (get_autocomplete_suggestions (c_str "he") 10
         (add_autocomplete_suggestion (c_str "hello") (binary32_of_Z 0)
            AC_SOURCE_DOCUMENT_TITLES 0 init_autocomplete_system).2)
  = [("hello"%string, S754_finite false 10066330 (-24))].
Proof. by vm_compute. Qed.

Example query_alpha_binary32 :
  map (λ r, (string_of_list_ascii (title r), relevance_score r))
      (search_and_rank (c_str "alpha") 10 0 5
         (add_document_to_search_engine (c_str "todo.txt")
            (Some (c_str "beta beta")) 0
            (add_document_to_search_engine (c_str "notes.txt")
               (Some (c_str "alpha beta alpha")) 0
               (init_search_engine search_engine_start)))).1
  = [("notes.txt"%string, binary32_of_Z 1); ("todo.txt"%string, binary32_of_Z 0)].
Proof. by vm_compute. Qed.

End ConcreteBinary32.

(** * Further properties of the autocomplete engine *)

Section SuggestOrder.
Context `{F : FloatOps} `{!FloatLaws F} `{Qsort} `{Limits}.

Lemma compare_suggestions_le a b :
  compare_suggestions a b ≤ 0 ↔ fleb (res_score b) (res_score a) = true.
Proof.
  unfold compare_suggestions, fgtb, fleb.
  destruct (fltb (res_score b) (res_score a)) eqn:Hba.
  - rewrite (fltb_asym _ _ Hba). split; [done | lia].
  - destruct (fltb (res_score a) (res_score b)); split; done || lia.
Qed.

(** X1. The list get_autocomplete_suggestions returns is in non-increasing
    order of score, for every query, cap and trie. *)
Theorem suggestions_sorted_by_score
    (query : cstring) (max : Z) (ctx : autocomplete_context_t) :
  StronglySorted (λ a b, fleb (res_score b) (res_score a) = true)
                 (get_autocomplete_suggestions query max ctx).
Proof.
  unfold get_autocomplete_suggestions.
  destruct (walk_prefix _ _) as [node|]; [|constructor].
  assert (Htot : cmp_total compare_suggestions).
  { intros a b. rewrite !compare_suggestions_le. unfold fleb.
    destruct (fltb (res_score a) (res_score b)) eqn:Hab; [|by left].
    right. by rewrite fltb_asym. }
  assert (Htr : cmp_trans compare_suggestions).
  { intros a b c. rewrite !compare_suggestions_le. intros Hab Hbc.
    by apply fleb_trans with (res_score b). }
  pose proof (qsort_sorted _ compare_suggestions
                (collect_suggestions_from_trie node max []) Htot Htr) as Hs.
  induction Hs as [|a l Hs IH Ha]; constructor; [done |].
  eapply Forall_impl; [exact Ha |]. intros b. apply compare_suggestions_le.
Qed.

End SuggestOrder.

Section SuggestBounds.
Context `{FloatOps} `{Qsort} `{Limits}.

(** The query as the descent reads it: cut to the buffer, in lower case. *)
Definition normalized_query (query : cstring) : cstring :=
  map tolower (strncpy query (MAX_QUERY_LENGTH - 1)).

(** X2. get_autocomplete_suggestions never returns more than
    max_suggestions entries, and none when max_suggestions is zero or
    negative; when the query leads to a node it returns exactly
    min (max_suggestions, number of end-of-word nodes below that node)
    entries, and none when the descent fails. *)
Theorem suggestions_count
    (query : cstring) (max : Z) (ctx : autocomplete_context_t) :
  let results := get_autocomplete_suggestions query max ctx in
  Z.of_nat (length results) ≤ Z.max 0 max ∧
  (max ≤ 0 → results = []) ∧
  match walk_prefix (root ctx) (normalized_query query) with
  | Some node =>
      length results = (Z.to_nat max `min` length (all_suggestions node))%nat
  | None => results = []
  end.
Proof.
  intros results. subst results. unfold normalized_query.
  destruct (walk_prefix (root ctx) _) as [node|] eqn:Hwalk.
  - rewrite (get_autocomplete_suggestions_at _ _ _ _ Hwalk).
    rewrite (Permutation_length (qsort_perm _ _ _)), length_take.
    split; [lia |]. split; [|done].
    intros Hmax. apply Permutation_nil_r.
    rewrite qsort_perm. replace (Z.to_nat max) with 0%nat by lia. done.
  - unfold get_autocomplete_suggestions. rewrite Hwalk. simpl.
    split; [lia | done].
Qed.

(** X3. On the trie of a freshly initialised engine every query, the empty
    one included, returns no suggestion. *)
Theorem suggestions_of_empty_trie (query : cstring) (max : Z) :
  get_autocomplete_suggestions query max init_autocomplete_system = [].
Proof.
  unfold get_autocomplete_suggestions, init_autocomplete_system. cbn [root].
  destruct (walk_prefix create_trie_node _) as [node|] eqn:Hwalk; [|done].
  apply Permutation_nil_r. rewrite qsort_perm.
  rewrite collect_suggestions_from_trie_take. cbn [app].
  assert (Hall : all_suggestions node = []); [|by rewrite Hall, take_nil].
  destruct (map tolower _) as [|ch rest].
  - injection Hwalk as <-. rewrite all_suggestions_eq.
    unfold own_suggestion, create_trie_node. cbn [is_end_of_word children].
    generalize 128%nat. intros n. induction n as [|n IH]; [done |]. exact IH.
  - cbn [walk_prefix] in Hwalk.
    destruct (128 <=? char_code ch)%nat; [done |].
    unfold child, create_trie_node in Hwalk. cbn [children] in Hwalk.
    destruct (replicate 128 None !! char_code ch) as [[n|]|] eqn:Hc; [|done..].
    apply lookup_replicate in Hc as [? _]. done.
Qed.

(** X4. The query is matched without regard to case: a query and its
    lower-case form return the same suggestions. *)
Theorem suggestions_ignore_query_case
    (query : cstring) (max : Z) (ctx : autocomplete_context_t) :
  get_autocomplete_suggestions (map tolower query) max ctx =
  get_autocomplete_suggestions query max ctx.
Proof.
  unfold get_autocomplete_suggestions, strncpy.
  rewrite <-fmap_take, <-list_fmap_compose.
  assert (Heq : (tolower ∘ tolower) <$> take (MAX_QUERY_LENGTH - 1) query
                = map tolower (take (MAX_QUERY_LENGTH - 1) query)); [|by rewrite Heq].
  apply list_fmap_ext. intros _ c _. apply tolower_idemp.
Qed.

End SuggestBounds.

Section TrieEdges.
Context `{FloatOps} `{Limits}.

(** A character under which [insert_suggestion_into_trie] can create an
    edge: a lower-case letter or a digit. *)
Definition edge_char (c : ascii) : Prop := isalnum c = true ∧ tolower c = c.

(** Every edge of the trie is labelled by such a character. *)
Inductive trie_edges_normal : trie_node_t → Prop :=
| trie_edges_normal_node cs e s sc f lu :
    (∀ i n, cs !! i = Some (Some n) → ∃ c, i = char_code c ∧ edge_char c) →
    (∀ i n, cs !! i = Some (Some n) → trie_edges_normal n) →
    trie_edges_normal (TrieNode cs e s sc f lu).

Lemma trie_edges_normal_create : trie_edges_normal create_trie_node.
Proof.
  constructor; intros i n Hi; apply lookup_replicate in Hi as [? _]; done.
Qed.

Lemma trie_edges_normal_next node c :
  trie_edges_normal node →
  trie_edges_normal (default create_trie_node (child node c)).
Proof.
  intros Hn. unfold child. destruct Hn as [cs e s sc f lu _ Hsub]. cbn [children].
  destruct (cs !! c) as [[n|]|] eqn:Hc; simpl;
    [by eapply Hsub | apply trie_edges_normal_create..].
Qed.

Lemma insert_from_edges_normal node rest text sc t :
  trie_wf node → trie_edges_normal node →
  trie_edges_normal (insert_from node rest text sc t).
Proof.
  revert node. induction rest as [|ch rest IH]; intros node Hwf Hn.
  - destruct Hn. by constructor.
  - cbn [insert_from]. destruct (isalnum (tolower ch)) eqn:Halnum; cbn [negb];
      [|by apply IH].
    pose proof (trie_wf_next node (char_code (tolower ch)) Hwf) as Hwf'.
    pose proof (trie_edges_normal_next node (char_code (tolower ch)) Hn) as Hn'.
    inversion Hwf as [cs e s sc' f lu Hlen _ Heq]. subst node.
    inversion Hn as [? ? ? ? ? ? Hlab Hsub]. subst. cbn [children] in *.
    pose proof (isalnum_code _ Halnum) as Hcode.
    constructor; intros i n Hi.
    + destruct (decide (i = char_code (tolower ch))) as [->|Hne].
      * exists (tolower ch). split; [done |]. split; [done | apply tolower_idemp].
      * rewrite list_lookup_insert_ne in Hi by done. by eapply Hlab.
    + destruct (decide (i = char_code (tolower ch))) as [->|Hne].
      * rewrite list_lookup_insert_eq in Hi by lia. injection Hi as <-.
        by apply IH.
      * rewrite list_lookup_insert_ne in Hi by done. by eapply Hsub.
Qed.

(** The descent fails on a string that holds a character other than a
    lower-case letter or a digit. *)
Lemma walk_prefix_not_edge_char node s :
  trie_edges_normal node → Exists (λ c, ¬ edge_char c) s →
  walk_prefix node s = None.
Proof.
  intros Hn Hex. revert node Hn.
  induction Hex as [c s Hc|c s Hex IH]; intros node Hn; cbn [walk_prefix];
    destruct (128 <=? char_code c)%nat; try done;
    destruct (child node (char_code c)) as [n|] eqn:Hchild; try done;
    unfold child in Hchild; destruct Hn as [cs e s' sc f lu Hlab Hsub];
    cbn [children] in Hchild;
    destruct (cs !! char_code c) as [[n'|]|] eqn:Hl; try done;
    injection Hchild as ->.
  - destruct (Hlab _ _ Hl) as (c' & Hcc & Hedge).
    apply char_code_inj in Hcc as ->. done.
  - apply IH. by eapply Hsub.
Qed.

End TrieEdges.

Section SuggestSoundness.
Context `{FloatOps} `{Qsort} `{Limits}.

Lemma run_insertions_edges_normal l :
  trie_wf (root (run_insertions init_autocomplete_system l)) ∧
  trie_edges_normal (root (run_insertions init_autocomplete_system l)).
Proof.
  unfold run_insertions.
  apply (foldl_preserves
           (λ ctx, trie_wf (root ctx) ∧ trie_edges_normal (root ctx))).
  - intros ctx ins [Hwf Hn]. split; [by apply run_insertion_wf |].
    rewrite run_insertion_root.
    destruct (ins_text ins); [done | by apply insert_from_edges_normal].
  - split; [apply trie_wf_create | apply trie_edges_normal_create].
Qed.

(** X5. Insertion deletes punctuation but the query keeps it: on a trie
    built by insertions, a query that holds (within the query buffer) a
    character which is not a letter or a digit, such as an apostrophe, a
    space, an underscore or a byte above 127, returns no suggestion. *)
Theorem suggestions_reject_punctuation
    (inserted : list insertion) (query : cstring) (max : Z) :
  Exists (λ c, isalnum c = false) (strncpy query (MAX_QUERY_LENGTH - 1)) →
  get_autocomplete_suggestions query max
    (run_insertions init_autocomplete_system inserted) = [].
Proof.
  intros Hex. unfold get_autocomplete_suggestions.
  rewrite walk_prefix_not_edge_char; [done | apply run_insertions_edges_normal |].
  apply Exists_fmap. eapply Exists_impl; [exact Hex |].
  intros c Hc [Halnum _]. simpl in *.
  assert (isalnum (tolower c) = isalnum c) as Heq
    by (by destruct c as [[] [] [] [] [] [] [] []]).
  congruence.
Qed.

(** What the trie stores comes from an insertion: the entry under a key
    holds the text of an inserted suggestion whose normalised form is the
    key. *)
Lemma stored_from_insertion l key r :
  stored (root (run_insertions init_autocomplete_system l)) key = Some r →
  ∃ ins, ins ∈ l ∧ ins_text ins ≠ [] ∧
         normalize_suggestion (ins_text ins) = key ∧
         res_suggestion r = strncpy (ins_text ins) (MAX_SUGGESTION_LENGTH - 1).
Proof.
  revert key r. induction l as [|ins l IH] using rev_ind; intros key r.
  - unfold run_insertions. cbn [foldl init_autocomplete_system root].
    by rewrite stored_create.
  - unfold run_insertions. rewrite foldl_app. cbn [foldl].
    fold (run_insertions init_autocomplete_system l).
    destruct (run_insertions_edges_normal l) as [Hwf _].
    destruct (decide (ins_text ins = [])) as [Hempty|Htext].
    { rewrite run_insertion_root, Hempty. intros Hr.
      destruct (IH _ _ Hr) as (ins' & Hin & Hrest).
      exists ins'. split; [|done]. apply elem_of_app. by left. }
    destruct (decide (key = normalize_suggestion (ins_text ins))) as [->|Hne].
    + destruct (run_insertion_stored_same _ ins Hwf Htext) as (r' & Hr' & Hs).
      rewrite Hr'. intros [= <-]. exists ins. split; [|done].
      apply elem_of_app. right. by apply list_elem_of_singleton.
    + rewrite run_insertion_stored_other by done. intros Hr.
      destruct (IH _ _ Hr) as (ins' & Hin & Hrest).
      exists ins'. split; [|done]. apply elem_of_app. by left.
Qed.

Lemma stored_below node p key r n :
  walk_prefix node p = Some n → stored n key = Some r →
  stored node (p ++ key) = Some r.
Proof.
  intros Hwalk Hr. unfold stored. rewrite walk_prefix_app, Hwalk. exact Hr.
Qed.

(** X6. get_autocomplete_suggestions returns nothing but inserted
    suggestions that match: every entry returned holds the text (cut to the
    suggestion buffer) of a suggestion that was inserted, and the normalised
    form of that suggestion starts with the lower-case query. *)
Theorem suggestions_match_query
    (inserted : list insertion) (query : cstring) (max : Z)
    (r : autocomplete_result_t) :
  r ∈ get_autocomplete_suggestions query max
        (run_insertions init_autocomplete_system inserted) →
  ∃ ins, ins ∈ inserted ∧
         res_suggestion r = strncpy (ins_text ins) (MAX_SUGGESTION_LENGTH - 1) ∧
         normalized_query query `prefix_of` normalize_suggestion (ins_text ins).
Proof.
  unfold get_autocomplete_suggestions. fold (normalized_query query).
  set (ctx := run_insertions init_autocomplete_system inserted).
  destruct (walk_prefix (root ctx) (normalized_query query)) as [node|] eqn:Hwalk;
    [|by intros ?%not_elem_of_nil].
  rewrite qsort_perm, collect_suggestions_from_trie_take. cbn [app].
  intros (i & Hin%list_elem_of_lookup_2 & _)%elem_of_take.
  destruct (run_insertions_edges_normal inserted) as [Hwf _]. fold ctx in Hwf.
  assert (Hwf' : trie_wf node).
  { clear Hin. revert Hwalk Hwf. generalize (root ctx) (normalized_query query).
    intros n0 s. revert n0. induction s as [|c s IH]; intros n0 Hw Hwf0.
    - by injection Hw as <-.
    - cbn [walk_prefix] in Hw. destruct (128 <=? char_code c)%nat; [done |].
      destruct (child n0 (char_code c)) as [n1|] eqn:Hc; [|done].
      apply (IH n1 Hw). by eapply trie_wf_child. }
  destruct (all_suggestions_stored node r Hwf' Hin) as [key Hkey].
  pose proof (stored_below _ _ _ _ _ Hwalk Hkey) as Hst.
  destruct (stored_from_insertion _ _ _ Hst) as (ins & Hins & _ & Hnorm & Hs).
  exists ins. split; [done |]. split; [done |]. rewrite Hnorm. by exists key.
Qed.

End SuggestSoundness.

Section StoredEntry.
Context `{FloatOps} `{Qsort} `{Limits}.

(** The score [add_autocomplete_suggestion] stores: the caller's if it is
    positive, the default of the source otherwise. *)
Definition final_score (ins : insertion) : float :=
  if fgtb (ins_score ins) fzero then ins_score ins
  else calculate_suggestion_score (ins_text ins) (ins_source ins).

(** The frequency counter of the node a key leads to; 0 without a node. *)
Definition node_frequency (node : trie_node_t) (key : cstring) : Z :=
  match walk_prefix node key with
  | Some n => frequency n
  | None => 0
  end.

(** An accepted insertion filed under the key. *)
Definition files_under (key : cstring) (ins : insertion) : Prop :=
  ins_text ins ≠ [] ∧ normalize_suggestion (ins_text ins) = key.

#[global] Instance files_under_dec key ins : Decision (files_under key ins).
Proof. unfold files_under. apply _. Defined.

Lemma node_frequency_create key : node_frequency create_trie_node key = 0.
Proof.
  unfold node_frequency. destruct key as [|ch key]; [done |]. cbn [walk_prefix].
  destruct (128 <=? char_code ch)%nat; [done |].
  unfold child, create_trie_node. cbn [children].
  destruct (replicate 128 None !! char_code ch) as [[n|]|] eqn:Hc; [|done..].
  apply lookup_replicate in Hc as [? _]. done.
Qed.

Lemma node_frequency_next node c key :
  (128 <=? char_code c)%nat = false →
  node_frequency node (c :: key) =
  node_frequency (default create_trie_node (child node (char_code c))) key.
Proof.
  intros Hc. unfold node_frequency at 1. cbn [walk_prefix]. rewrite Hc.
  destruct (child node (char_code c)) as [n|]; simpl; [done |].
  by rewrite node_frequency_create.
Qed.

Lemma node_frequency_insert_same node rest text sc t :
  trie_wf node →
  node_frequency (insert_from node rest text sc t) (normalize_suggestion rest)
  = wrap_int (node_frequency node (normalize_suggestion rest) + 1).
Proof.
  revert node. induction rest as [|ch rest IH]; intros node Hwf; [done |].
  rewrite normalize_suggestion_cons. cbn [insert_from].
  destruct (isalnum (tolower ch)) eqn:Halnum; cbn [negb]; [|by apply IH].
  pose proof (isalnum_code _ Halnum) as Hcode.
  assert (Hlt : (128 <=? char_code (tolower ch))%nat = false)
    by (apply Nat.leb_gt; lia).
  rewrite (node_frequency_next node) by done.
  rewrite <-IH by (by apply trie_wf_next).
  unfold node_frequency at 1. cbn [walk_prefix]. rewrite Hlt.
  unfold child at 1. cbn [children].
  destruct Hwf as [cs e s sc' f lu Hlen Hcs]. cbn [children].
  by rewrite list_lookup_insert_eq by lia.
Qed.

Lemma node_frequency_insert_other node rest text sc t key :
  trie_wf node → key ≠ normalize_suggestion rest →
  node_frequency (insert_from node rest text sc t) key = node_frequency node key.
Proof.
  revert node key. induction rest as [|ch rest IH]; intros node key Hwf Hkey.
  - destruct key as [|k key]; [done |]. by destruct node.
  - rewrite normalize_suggestion_cons in Hkey. cbn [insert_from].
    destruct (isalnum (tolower ch)) eqn:Halnum; cbn [negb]; [|by apply IH].
    pose proof (isalnum_code _ Halnum) as Hcode.
    pose proof (trie_wf_next node (char_code (tolower ch)) Hwf) as Hnext.
    destruct key as [|k key]; [by destruct node |].
    destruct (128 <=? char_code k)%nat eqn:Hk128.
    { unfold node_frequency. cbn [walk_prefix]. by rewrite Hk128. }
    rewrite (node_frequency_next node) by done.
    unfold node_frequency at 1. cbn [walk_prefix]. rewrite Hk128.
    unfold child at 1. cbn [children].
    destruct (decide (char_code k = char_code (tolower ch))) as [Hk|Hk].
    + rewrite Hk. rewrite list_lookup_insert_eq
        by (destruct Hwf as [cs e s sc' f lu Hlen Hcs]; cbn [children]; lia).
      apply char_code_inj in Hk as ->.
      assert (Hkey' : key ≠ normalize_suggestion rest) by congruence.
      apply (IH _ key Hnext Hkey').
    + rewrite list_lookup_insert_ne by done.
      unfold node_frequency, child.
      destruct (children node !! char_code k) as [[n|]|]; simpl; try done;
        symmetry; apply node_frequency_create.
Qed.

Lemma run_insertion_frequency ctx ins key :
  trie_wf (root ctx) →
  node_frequency (root (run_insertion ctx ins)) key =
  if decide (files_under key ins)
  then wrap_int (node_frequency (root ctx) key + 1)
  else node_frequency (root ctx) key.
Proof.
  intros Hwf. rewrite run_insertion_root.
  destruct (decide (files_under key ins)) as [[Htext <-]|Hno].
  - destruct (ins_text ins) as [|ch text]; [done |].
    by apply node_frequency_insert_same.
  - destruct (ins_text ins) as [|ch text] eqn:Htext; [done |].
    apply node_frequency_insert_other; [done |].
    intros ->. apply Hno. split; [by rewrite Htext | by rewrite Htext].
Qed.

Lemma run_insertions_frequency ctx l key :
  trie_wf (root ctx) → 0 ≤ node_frequency (root ctx) key →
  node_frequency (root ctx) key + Z.of_nat (length (filter (files_under key) l))
    ≤ INT_MAX →
  node_frequency (root (run_insertions ctx l)) key =
  node_frequency (root ctx) key + Z.of_nat (length (filter (files_under key) l)).
Proof.
  revert ctx. induction l as [|ins l IH]; intros ctx Hwf Hpos Hmax.
  - simpl. lia.
  - cbn [run_insertions foldl]. fold (run_insertions (run_insertion ctx ins) l).
    pose proof (run_insertion_frequency ctx ins key Hwf) as Hstep.
    pose proof (run_insertion_wf ctx ins Hwf) as Hwf'.
    destruct (decide (files_under key ins)) as [Hu|Hu].
    + rewrite filter_cons_True in * by done. cbn [length] in *.
      rewrite wrap_int_id in Hstep by (unfold INT_MIN, INT_MAX in *; lia).
      rewrite IH; [lia | done | lia | lia].
    + rewrite filter_cons_False in * by done.
      rewrite IH; [lia | done | lia | lia].
Qed.

Lemma run_insertions_stored_others ctx l key :
  trie_wf (root ctx) →
  Forall (λ later, normalize_suggestion (ins_text later) ≠ key) l →
  stored (root (run_insertions ctx l)) key = stored (root ctx) key.
Proof.
  intros Hwf Hl. revert ctx Hwf.
  induction Hl as [|later l Hlater _ IH]; intros ctx Hwf; [done |].
  cbn [run_insertions foldl]. fold (run_insertions (run_insertion ctx later) l).
  rewrite IH by (by apply run_insertion_wf).
  apply run_insertion_stored_other; [done | congruence].
Qed.

(** X7. Last write wins. After any sequence of insertions, the entry stored
    under the normalised form of a suggestion is that of the last insertion
    filed under it: its text as given (cut to the suggestion buffer), the
    caller's score if positive and the default of the source otherwise, the
    time of that insertion, and as frequency the number of accepted
    insertions filed under the key, as long as this number fits an [int]. *)
Theorem stored_entry_of_last_insertion
    (before after : list insertion) (ins : insertion) :
  let key := normalize_suggestion (ins_text ins) in
  let l := before ++ ins :: after in
  let n := length (filter (files_under key) l) in
  ins_text ins ≠ [] →
  Forall (λ later, normalize_suggestion (ins_text later) ≠ key) after →
  Z.of_nat n ≤ INT_MAX →
  stored (root (run_insertions init_autocomplete_system l)) key =
  Some (AutocompleteResult
          (strncpy (ins_text ins) (MAX_SUGGESTION_LENGTH - 1))
          (final_score ins) (Z.of_nat n) (ins_time ins) false).
Proof.
  intros key l n Htext Hafter Hn. subst l n.
  assert (Hnone : filter (files_under key) after = []).
  { clear Hn. induction Hafter as [|later after Hl _ IH]; [done |].
    rewrite filter_cons_False; [done | by intros [_ ?]]. }
  rewrite filter_app, filter_cons_True, Hnone in * by done.
  rewrite length_app in *. cbn [length] in *.
  unfold run_insertions. rewrite foldl_app. cbn [foldl].
  fold (run_insertions init_autocomplete_system before).
  set (ctx0 := run_insertions init_autocomplete_system before).
  fold (run_insertions (run_insertion ctx0 ins) after).
  assert (Hwf0 : trie_wf (root ctx0)) by apply run_insertions_wf, trie_wf_create.
  rewrite run_insertions_stored_others; [|by apply run_insertion_wf | done].
  assert (Hfreq0 : node_frequency (root ctx0) key
                   = Z.of_nat (length (filter (files_under key) before))).
  { subst ctx0. rewrite run_insertions_frequency;
      cbn [init_autocomplete_system root]; rewrite ?node_frequency_create;
      [lia | apply trie_wf_create | lia | lia]. }
  pose proof (run_insertion_frequency ctx0 ins key Hwf0) as Hfreq.
  rewrite decide_True, Hfreq0 in Hfreq by done.
  rewrite wrap_int_id in Hfreq by (unfold INT_MIN, INT_MAX in *; lia).
  revert Hfreq. rewrite run_insertion_root.
  assert (Hfinal : final_score ins =
                   if fgtb (ins_score ins) fzero then ins_score ins
                   else calculate_suggestion_score (ins_text ins) (ins_source ins))
    by done.
  revert Hfinal. generalize (final_score ins). intros final Hfinal.
  destruct (ins_text ins) as [|ch text] eqn:Heq; [done |]. rewrite <-Hfinal.
  destruct (walk_insert_same (root ctx0) (ch :: text) (ch :: text)
              final (ins_time ins) Hwf0)
    as (node & Hwalk & Hend & Hsug & Hsc & Hlu).
  subst key. unfold node_frequency, stored. rewrite Hwalk.
  cbn [mbind option_bind]. unfold own_entry, result_of_node.
  rewrite Hend, Hsug, Hlu, Hsc. intros ->. do 2 f_equal. lia.
Qed.

End StoredEntry.

Section SuggestionCounter.
Context `{FloatOps} `{Qsort} `{Limits}.

Lemma run_insertion_total ctx ins :
  total_suggestions (run_insertion ctx ins) =
  match ins_text ins with
  | [] => total_suggestions ctx
  | _ => wrap_int (total_suggestions ctx + 1)
  end.
Proof.
  unfold run_insertion, add_autocomplete_suggestion.
  by destruct (ins_text ins).
Qed.

(** X8. total_suggestions counts the calls of add_autocomplete_suggestion
    that were accepted, repeated texts included: a call with an empty text
    is rejected with -1 and changes nothing, every other call returns 0 and
    adds one to the counter (as long as the count fits an [int]). *)
Theorem total_suggestions_counts_accepted_calls (l : list insertion) :
  let accepted := filter (λ ins, ins_text ins ≠ []) l in
  Z.of_nat (length accepted) ≤ INT_MAX →
  total_suggestions (run_insertions init_autocomplete_system l)
    = Z.of_nat (length accepted) ∧
  ∀ ctx ins,
    let r := add_autocomplete_suggestion (ins_text ins) (ins_score ins)
               (ins_source ins) (ins_time ins) ctx in
    (ins_text ins = [] → r = (-1, ctx)) ∧ (ins_text ins ≠ [] → r.1 = 0).
Proof.
  intros accepted Hmax. subst accepted. split.
  - change 0%nat with (Z.to_nat 0) in *.
    assert (Hgen : ∀ ctx,
      0 ≤ total_suggestions ctx →
      total_suggestions ctx
        + Z.of_nat (length (filter (λ ins, ins_text ins ≠ []) l)) ≤ INT_MAX →
      total_suggestions (run_insertions ctx l) =
      total_suggestions ctx
        + Z.of_nat (length (filter (λ ins, ins_text ins ≠ []) l))).
    { clear Hmax. induction l as [|ins l IH]; intros ctx Hpos Hmax.
      - simpl. lia.
      - cbn [run_insertions foldl].
        fold (run_insertions (run_insertion ctx ins) l).
        pose proof (run_insertion_total ctx ins) as Hstep.
        destruct (decide (ins_text ins ≠ [])) as [Hne|He].
        + rewrite filter_cons_True in * by done. cbn [length] in *.
          destruct (ins_text ins); [done |].
          rewrite wrap_int_id in Hstep by (unfold INT_MIN, INT_MAX in *; lia).
          rewrite IH; lia.
        + rewrite filter_cons_False in * by done.
          destruct (ins_text ins); [|by destruct He].
          rewrite IH; lia. }
    rewrite Hgen; cbn [init_autocomplete_system total_suggestions]; lia.
  - intros ctx ins r. subst r. unfold add_autocomplete_suggestion.
    split; intros Ht; [by rewrite Ht | by destruct (ins_text ins)].
Qed.

End SuggestionCounter.

(** * Further properties of the search engine *)

(** [strstr] finds nothing only when the term occurs nowhere. *)
Lemma strstr_None text term :
  strstr text term = None → ∀ l1 l2, text ≠ l1 ++ term ++ l2.
Proof.
  induction text as [|b text IH]; cbn [strstr].
  - destruct (starts_with [] term) eqn:Hs; [done |]. intros _ l1 l2 Heq.
    symmetry in Heq. apply app_eq_nil in Heq as [_ [-> _]%app_eq_nil].
    by destruct l1.
  - destruct (starts_with (b :: text) term) eqn:Hs; [done |].
    intros Hnone l1 l2 Heq. destruct l1 as [|a l1].
    + assert (starts_with (b :: text) term = true); [|congruence].
      apply starts_with_prefix. exists l2. exact Heq.
    + injection Heq as _ Heq. by eapply IH.
Qed.

(** X9. Occurrences are counted without overlap: the count times the
    length of the term never exceeds the length of the text; and the count
    is positive exactly when the term is non-empty and occurs in the text
    (an empty term counts 0). *)
Theorem count_occurrences_disjoint (text term : cstring) :
  count_occurrences text term * Z.of_nat (length term)
    ≤ Z.of_nat (length text) ∧
  (0 < count_occurrences text term ↔
   term ≠ [] ∧ ∃ l1 l2, text = l1 ++ term ++ l2).
Proof.
  destruct (decide (term = [])) as [->|Hterm].
  { split; [simpl; lia |]. split; [done | by intros [? _]]. }
  split.
  - remember (length text) as n eqn:Hn. revert text Hn.
    induction n as [n IH] using lt_wf_ind. intros text ->.
    rewrite count_occurrences_unfold by done.
    destruct (strstr text term) as [q|] eqn:Hq; [|lia].
    apply strstr_Some in Hq as [Hs [skipped ->]].
    apply starts_with_length in Hs.
    assert (0 < length term)%nat by (destruct term; [done | simpl; lia]).
    specialize (IH (length (drop (length term) q))).
    rewrite length_app, length_drop in *.
    specialize (IH ltac:(lia) (drop (length term) q)).
    rewrite length_drop in IH. specialize (IH eq_refl). lia.
  - rewrite count_occurrences_unfold by done.
    destruct (strstr text term) as [q|] eqn:Hq.
    + pose proof (count_occurrences_nonneg (drop (length term) q) term).
      split; [|lia]. intros _. split; [done |].
      apply strstr_Some in Hq as [Hs [skipped ->]].
      apply starts_with_prefix in Hs as [rest ->]. by exists skipped, rest.
    + split; [lia |]. intros [_ (l1 & l2 & Heq)].
      exfalso. by apply (strstr_None _ _ Hq l1 l2).
Qed.

Section Tokens.
Context `{Limits}.

Lemma is_upper_tolower c : is_upper (tolower c) = false.
Proof. by destruct c as [[] [] [] [] [] [] [] []]. Qed.

(** What a token of the query is: not empty, without a space, without an
    upper-case letter. *)
Definition query_token (t : cstring) : Prop :=
  t ≠ [] ∧ (" "%char ∉ t) ∧ Forall (λ c, is_upper c = false) t.

Lemma strtok_spaces_tokens s cur :
  Forall (λ c, is_upper c = false) s →
  " "%char ∉ cur → Forall (λ c, is_upper c = false) cur →
  Forall query_token (strtok_spaces s cur).
Proof.
  intros Hs. revert cur. induction Hs as [|c s Hc Hs IH]; intros cur Hsp Hup.
  - simpl. destruct cur; [constructor |]. constructor; [by split | constructor].
  - cbn [strtok_spaces]. case_bool_decide as Hspace.
    + assert (Forall query_token (strtok_spaces s [])) as Hrest.
      { apply IH; [apply not_elem_of_nil | constructor]. }
      destruct cur; [done |]. constructor; [|done]. by split.
    + apply IH.
      * rewrite elem_of_app, list_elem_of_singleton. intros [?|?]; congruence.
      * apply Forall_app. split; [done | by constructor].
Qed.

(** X10. The tokens search_and_rank scores with are at most 16, and each
    is non-empty, holds no space and no upper-case letter, whatever the
    query: runs of spaces, leading and trailing spaces give no empty
    token. *)
Theorem query_tokens_shape (query : cstring) :
  (length (query_tokens query) ≤ 16)%nat ∧
  Forall query_token (query_tokens query).
Proof.
  unfold query_tokens. split; [rewrite length_take; lia |].
  apply Forall_take, strtok_spaces_tokens;
    [|apply not_elem_of_nil | constructor].
  unfold to_lower_inplace. apply Forall_map, Forall_forall.
  intros c _. apply is_upper_tolower.
Qed.

End Tokens.

Section CatalogOrder.
Context `{FloatOps} `{Qsort} `{Limits}.

(** The document an add stores when it fills slot [i]. *)
Definition document_of_add (i : nat) (op : catalog_add) : search_result_t :=
  match op with
  | AddVirtualDocument doc => doc
  | AddDocument filename file now =>
      SearchResult
        (strncpy filename (MAX_TITLE_LENGTH - 1))
        match file with
        | None =>
            strncpy (c_str "(Could not read file '" ++ filename ++ c_str "')")
                    (MAX_DESCRIPTION_LENGTH - 1)
        | Some data => strncpy data (MAX_DESCRIPTION_LENGTH - 1)
        end
        (c_str "local-file") (Z.of_nat i + 1) fzero now 0 fzero
  end.

Lemma run_catalog_add_next st op :
  catalog_inv st → g_document_count st < Z.of_nat MAX_DOCUMENTS →
  catalog (run_catalog_add st op) =
    catalog st ++ [document_of_add (Z.to_nat (g_document_count st)) op] ∧
  g_document_count (run_catalog_add st op) = g_document_count st + 1 ∧
  g_total_documents (run_catalog_add st op) = g_document_count st + 1.
Proof.
  intros [Hl Hc] Hlt.
  assert (Hn : (Z.to_nat (g_document_count st) < length (g_documents st))%nat)
    by (rewrite Hl; lia).
  assert (Hgrow : ∀ doc,
    take (Z.to_nat (g_document_count st + 1))
         (<[Z.to_nat (g_document_count st) := doc]> (g_documents st))
    = take (Z.to_nat (g_document_count st)) (g_documents st) ++ [doc]).
  { intros doc. replace (Z.to_nat (g_document_count st + 1))
      with (S (Z.to_nat (g_document_count st))) by lia.
    erewrite take_S_r by (by apply list_lookup_insert_eq).
    by rewrite take_insert_ge by lia. }
  destruct op as [filename file now|doc]; cbn [run_catalog_add document_of_add];
    unfold add_document_to_search_engine, add_document_to_search_engine_virtual,
      catalog;
    destruct (Z.leb_spec (Z.of_nat MAX_DOCUMENTS) (g_document_count st));
    try lia; cbn [g_documents g_document_count g_total_documents];
    rewrite Hgrow; repeat split; do 3 f_equal; lia.
Qed.

(** X11. The catalog is insertion-ordered and keeps the first adds: after
    any sequence of add_document_to_search_engine and
    add_document_to_search_engine_virtual calls on an initialised engine it
    holds, in the order of the calls, the documents of the first 100 calls
    and nothing of the later ones; a file added in slot i gets document id
    i + 1; and g_total_documents equals the document count. *)
Theorem catalog_keeps_first_adds (st0 : search_engine_t) (ops : list catalog_add) :
  length (g_documents st0) = MAX_DOCUMENTS →
  let st := foldl run_catalog_add (init_search_engine st0) ops in
  catalog st = take MAX_DOCUMENTS (imap document_of_add ops) ∧
  g_document_count st = Z.of_nat (MAX_DOCUMENTS `min` length ops) ∧
  g_total_documents st = g_document_count st.
Proof.
  intros Hlen st. subst st.
  assert (Hall : catalog_inv (foldl run_catalog_add (init_search_engine st0) ops) ∧
    catalog (foldl run_catalog_add (init_search_engine st0) ops)
      = take MAX_DOCUMENTS (imap document_of_add ops) ∧
    g_document_count (foldl run_catalog_add (init_search_engine st0) ops)
      = Z.of_nat (MAX_DOCUMENTS `min` length ops) ∧
    g_total_documents (foldl run_catalog_add (init_search_engine st0) ops)
      = g_document_count (foldl run_catalog_add (init_search_engine st0) ops));
    [|by destruct Hall as (_ & ? & ? & ?)].
  induction ops as [|op ops IH] using rev_ind.
  - split; [by apply catalog_inv_init |]. by repeat split.
  - rewrite foldl_app. cbn [foldl].
    destruct IH as (Hinv & Hcat & Hcount & Htotal).
    set (st := foldl run_catalog_add (init_search_engine st0) ops) in *.
    split; [by apply run_catalog_add_inv |].
    rewrite imap_app, length_app. cbn [imap length].
    destruct (decide (length ops < MAX_DOCUMENTS)%nat) as [Hroom|Hfull].
    + destruct (run_catalog_add_next st op Hinv) as (Hcat' & Hcount' & Htotal');
        [lia |].
      rewrite Hcat', Hcount', Htotal', Hcat, Hcount.
      rewrite Nat.min_r by lia. rewrite Nat2Z.id.
      rewrite !take_ge by (rewrite ?length_app, length_imap; simpl; lia).
      rewrite Nat.add_0_r. repeat split; lia.
    + rewrite run_catalog_add_full by lia.
      rewrite Hcat, Hcount, Htotal, Hcount.
      rewrite take_app_le by (rewrite length_imap; lia).
      repeat split; lia.
Qed.

(** X12. A query never changes the catalog: search_and_rank leaves the
    document array and the count as they were (the relevance it computes is
    written to copies), and every result it returns is a document of the
    catalog in which only the relevance score may differ. *)
Theorem search_and_rank_reads_catalog
    (query : cstring) (max_results t0 t1 : Z) (st : search_engine_t) :
  let r := search_and_rank query max_results t0 t1 st in
  g_documents r.2 = g_documents st ∧
  g_document_count r.2 = g_document_count st ∧
  catalog r.2 = catalog st ∧
  ∀ res, res ∈ r.1 →
    ∃ doc, doc ∈ catalog st ∧ res = set_relevance doc (relevance_score res).
Proof.
  intros r. subst r. unfold search_and_rank.
  destruct (max_results <=? 0); [by repeat split; intros ? ?%not_elem_of_nil |].
  destruct (negb (g_search_engine_initialized st));
    [by repeat split; intros ? ?%not_elem_of_nil |].
  destruct (g_document_count st =? 0);
    [by repeat split; intros ? ?%not_elem_of_nil |].
  cbn [fst snd]. repeat split.
  intros res (i & Hres%list_elem_of_lookup_2 & _)%elem_of_take.
  rewrite qsort_perm, scored_documents_spec in Hres.
  apply list_elem_of_fmap in Hres as (doc & -> & Hdoc).
  exists doc. split; [done |]. by destruct doc.
Qed.

End CatalogOrder.

(** ** The line reader *)

(** X13. The chunks [fgets (line, 1024, fp)] returns cut the file without
    loss: put end to end they give the file back, none is empty, none is
    longer than 1023 characters, and a newline can only be the last
    character of a chunk. *)
Theorem fgets_lines_partition (data : cstring) :
  concat (fgets_lines data []) = data ∧
  Forall (λ line, line ≠ [] ∧ (length line ≤ 1023)%nat ∧
                  ("010"%char ∉ removelast line))
         (fgets_lines data []).
Proof.
  assert (Hgen : ∀ cur,
    (length cur < 1023)%nat → ("010"%char ∉ cur) →
    concat (fgets_lines data cur) = cur ++ data ∧
    Forall (λ line, line ≠ [] ∧ (length line ≤ 1023)%nat ∧
                    ("010"%char ∉ removelast line))
           (fgets_lines data cur)).
  { induction data as [|c data IH]; intros cur Hlen Hnl.
    - cbn [fgets_lines]. destruct cur as [|a cur].
      + by split.
      + simpl concat. rewrite !app_nil_r. split; [done |].
        constructor; [|constructor]. split; [done |]. split; [lia |].
        intros Hin. apply Hnl.
        destruct (exists_last (l := a :: cur) ltac:(done)) as (l' & x & Heq).
        rewrite Heq, removelast_last in Hin. rewrite Heq.
        apply elem_of_app. by left.
    - cbn [fgets_lines].
      destruct (bool_decide (c = "010"%char) || (length cur + 1 =? 1023)%nat)
        eqn:Hend.
      + destruct (IH []) as [Hcat Hall];
          [simpl; lia | apply not_elem_of_nil |].
        simpl concat. rewrite Hcat, <-app_assoc. split; [done |].
        constructor; [|done]. rewrite removelast_last, length_app.
        split; [by destruct cur |]. split; [simpl; lia | done].
      + apply orb_false_iff in Hend as [Hc Hl].
        apply bool_decide_eq_false in Hc. apply Nat.eqb_neq in Hl.
        destruct (IH (cur ++ [c])) as [Hcat Hall].
        * rewrite length_app. simpl. lia.
        * rewrite elem_of_app, list_elem_of_singleton. intros [?|?]; congruence.
        * rewrite <-app_assoc in Hcat. by split. }
  apply (Hgen []); [simpl; lia | apply not_elem_of_nil].
Qed.

(** ** extract_matching_line *)

(** [snprintf (out, out_size, ...)] for an [out_size] of at least 1: the
    text, cut to [out_size - 1] characters. *)
Definition snprintf (text : cstring) (out_size : nat) : cstring :=
  take (out_size - 1) text.

(** The line loop of [extract_matching_line] from line number [line_no]:
    the number and the text of the first line holding the query. *)
Fixpoint find_matching_line (lines : list cstring) (query_lower : cstring)
    (line_no : Z) : option (Z * cstring) :=
  match lines with
  | [] => None
  | line :: rest =>
      match strstr (map tolower (strncpy line 1023)) query_lower with
      | Some _ => Some (line_no, line)
      | None => find_matching_line rest query_lower (line_no + 1)
      end
  end.

(** [extract_matching_line]: what is written to [out] and the value
    returned; [file] is what [fopen] and the reads give for the file. *)
Definition extract_matching_line (file : option cstring) (query : cstring)
    (out_size : nat) : cstring * Z :=
  match file with
  | None => (snprintf (c_str "(Could not open file)") out_size, -1)
  | Some data =>
      let query_lower := map tolower (strncpy query 255) in
      match find_matching_line (fgets_lines data []) query_lower 1 with
      | Some (line_no, line) =>
          (snprintf (c_str "Line " ++ c_str (pretty line_no) ++ c_str ": " ++ line)
                    out_size,
           line_no)
      | None => (snprintf (c_str "(No matching line found)") out_size, -1)
      end
  end.

(** The term occurs in the text. *)
Definition occurs_in (term text : cstring) : Prop :=
  ∃ l1 l2, text = l1 ++ term ++ l2.

Lemma strstr_is_Some text term :
  is_Some (strstr text term) ↔ occurs_in term text.
Proof.
  split.
  - intros [q Hq]. apply strstr_Some in Hq as [Hs [skipped ->]].
    apply starts_with_prefix in Hs as [rest ->]. by exists skipped, rest.
  - intros (l1 & l2 & Heq). destruct (strstr text term) eqn:Hq; [done |].
    by destruct (strstr_None _ _ Hq l1 l2).
Qed.

Lemma find_matching_line_spec lines query_lower line_no :
  let holds line := occurs_in query_lower (map tolower line) in
  match find_matching_line lines query_lower line_no with
  | None => Forall (λ line, ¬ holds (strncpy line 1023)) lines
  | Some (n, line) =>
      ∃ i, n = line_no + Z.of_nat i ∧ lines !! i = Some line ∧
           holds (strncpy line 1023) ∧
           Forall (λ line, ¬ holds (strncpy line 1023)) (take i lines)
  end.
Proof.
  intros holds. revert line_no.
  induction lines as [|line lines IH]; intros line_no; cbn [find_matching_line].
  - constructor.
  - destruct (strstr _ query_lower) as [q|] eqn:Hq.
    + exists 0%nat. split; [lia |]. split; [done |]. split; [|constructor].
      apply strstr_is_Some. by rewrite Hq.
    + assert (Hno : ¬ holds (strncpy line 1023)).
      { intros Hh. apply strstr_is_Some in Hh. rewrite Hq in Hh.
        by destruct Hh. }
      specialize (IH (line_no + 1)).
      destruct (find_matching_line lines query_lower (line_no + 1))
        as [[n l]|].
      * destruct IH as (i & -> & Hi & Hh & Hbefore).
        exists (S i). split; [lia |]. split; [done |]. split; [done |].
        by constructor.
      * by constructor.
Qed.

(** X14. extract_matching_line returns -1 when the file cannot be opened
    or when no line holds the query; otherwise it returns the 1-based
    number of the first line that holds the query, compared without regard
    to case, and writes that line after "Line n: ", cut to the output
    buffer. An empty query matches the first line. *)
Theorem extract_matching_line_first
    (file : option cstring) (query : cstring) (out_size : nat) :
  let r := extract_matching_line file query out_size in
  let holds line :=
    occurs_in (map tolower (strncpy query 255)) (map tolower line) in
  match file with
  | None => r.2 = -1
  | Some data =>
      let lines := fgets_lines data [] in
      (r.2 = -1 ∧ Forall (λ line, ¬ holds line) lines) ∨
      (∃ i line,
         r.2 = Z.of_nat i + 1 ∧ lines !! i = Some line ∧ holds line ∧
         Forall (λ line, ¬ holds line) (take i lines) ∧
         r.1 = snprintf (c_str "Line " ++ c_str (pretty (Z.of_nat i + 1))
                         ++ c_str ": " ++ line) out_size)
  end.
Proof.
  intros r holds. subst r. destruct file as [data|]; [|done].
  intros lines. unfold extract_matching_line. fold lines.
  destruct (fgets_lines_partition data) as [_ Hshape]. fold lines in Hshape.
  assert (Hcut : ∀ line, line ∈ lines → strncpy line 1023 = line).
  { intros line Hin. rewrite Forall_forall in Hshape.
    destruct (Hshape line Hin) as (_ & Hlen & _).
    unfold strncpy. by rewrite take_ge. }
  pose proof (find_matching_line_spec lines
                (map tolower (strncpy query 255)) 1) as Hspec.
  destruct (find_matching_line lines _ 1) as [[n line]|].
  - right. destruct Hspec as (i & -> & Hi & Hh & Hbefore).
    exists i, line. cbn [fst snd].
    rewrite Hcut in Hh by (by eapply list_elem_of_lookup_2).
    split; [lia |]. split; [done |]. split; [done |]. split.
    + apply Forall_forall. intros l Hl. rewrite Forall_forall in Hbefore.
      specialize (Hbefore l Hl). rewrite Hcut in Hbefore; [done |].
      apply elem_of_take in Hl as (j & Hj & _). by eapply list_elem_of_lookup_2.
    + by rewrite Z.add_comm.
  - left. split; [done |]. apply Forall_forall. intros l Hl.
    rewrite Forall_forall in Hspec. specialize (Hspec l Hl).
    by rewrite Hcut in Hspec.
Qed.

(** * Further properties of the snapshot store *)

(** X15. The basename [commit_staged] keeps holds no slash, and the path is
    the basename itself when it holds no slash, and otherwise a directory
    part, a slash and the basename; a path that ends with a slash has an
    empty basename. *)
Theorem basename_spec (path : cstring) :
  ("/"%char ∉ basename path) ∧
  (("/"%char ∉ path) ∧ basename path = path ∨
   ∃ dir, path = dir ++ "/"%char :: basename path).
Proof.
  assert (Hgen : ∀ s cur,
    (("/"%char ∉ s) ∧ after_last_slash s cur = cur) ∨
    (("/"%char ∉ after_last_slash s cur) ∧
     ∃ dir, s = dir ++ "/"%char :: after_last_slash s cur)).
  { induction s as [|c s IH]; intros cur; cbn [after_last_slash].
    - left. split; [apply not_elem_of_nil | done].
    - case_bool_decide as Hc.
      + subst c. right. destruct (IH s) as [[Hno ->]|[Hno [dir Hdir]]].
        * split; [done |]. by exists [].
        * split; [done |]. exists ("/"%char :: dir). by rewrite Hdir at 1.
      + destruct (IH cur) as [[Hno ->]|[Hno [dir Hdir]]].
        * left. split; [|done]. rewrite not_elem_of_cons. by split.
        * right. split; [done |]. exists (c :: dir). by rewrite Hdir at 1. }
  unfold basename. destruct (Hgen path path) as [[Hno Heq]|[Hno Hdir]].
  - rewrite Heq. split; [done | by left].
  - split; [done | by right].
Qed.

Section StoreRoundTrips.
Context `{FloatOps} `{Qsort} `{Limits}.

(** The path [add_file] stages for a name: the name itself when it starts
    with a slash or a backslash, the current directory and the name
    otherwise, cut to the path buffer. *)
Definition staged_path (env : environment) (filename : cstring) : cstring :=
  match filename with
  | c :: _ =>
      if bool_decide (c = "/"%char) || bool_decide (c = "\"%char)
      then strncpy filename (MAX_FILENAME - 1)
      else strncpy (cwd env ++ c_str "/" ++ filename) (MAX_FILENAME - 1)
  | [] => []
  end.

(** X16. add_file stages a file exactly when the name is not empty and the
    staged path can be opened; otherwise it leaves the whole state as it
    was (nothing is indexed). A staged path is pushed at the head of the
    staging list, above the paths staged before, whether or not it is
    already there, and the repository is not touched. *)
Theorem add_file_outcome (filename : cstring) (env : environment)
    (st : program_state) :
  let r := add_file filename env st in
  (r.1 = FileAdded ↔
   filename ≠ [] ∧ is_Some (read_file env (staged_path env filename))) ∧
  (r.1 ≠ FileAdded → r.2 = st) ∧
  (r.1 = FileAdded →
   index_head r.2 = staged_path env filename :: index_head st ∧
   repo r.2 = repo st).
Proof.
  intros r. subst r. unfold add_file, staged_path.
  destruct filename as [|c filename].
  { split; [split; [done | by intros [? _]] |]. by split. }
  destruct (read_file env _) as [data|] eqn:Hread.
  - cbn [fst snd]. split; [split; [by intros _ | done] |]. split; [done |].
    intros _.
    match goal with |- context [index_file_for_search ?p env ?s] =>
      destruct (index_file_for_search_frame p env s) as [[Hr Hi] _] end.
    unfold set_search_engine. cbn [index_head repo]. by rewrite Hi, Hr.
  - cbn [fst snd]. split; [split; [done | by intros [_ [? ?]]] |]. by split.
Qed.

(** X17. commit_staged followed by view_commit: when something is staged,
    the id printed is the counter plus one, and view_commit finds under it
    a commit with the message cut to 255 characters and one snapshot per
    staged path, in the order of the staging list (last staged first), each
    with the basename cut to 199 characters and the content of the file at
    commit time cut to 49999 characters (a buffer never written when the
    file cannot be opened); the new commit heads the log. *)
Theorem view_commit_after_commit_staged (msg : cstring) (env : environment)
    (st : program_state) :
  index_head st ≠ [] →
  let r := commit_staged msg env st in
  let id := wrap_int (commit_count (repo st) + 1) in
  let c :=
    mkCommit id (strncpy msg 255)
      (map (λ f, mkCommitFile
                   (strncpy (basename f) (MAX_FILENAME - 1))
                   match read_file env f with
                   | Some data => strncpy data (MAX_FILE_CONTENT - 1)
                   | None => uninitialised env
                   end)
           (index_head st))
      (Z.of_nat (length (index_head st))) in
  r.1 = CommitCreated id ∧
  view_commit id r.2 = Some c ∧
  view_log r.2 = (id, strncpy msg 255) :: view_log st ∧
  commit_count (repo r.2) = id.
Proof.
  intros Hne r id c. subst r.
  destruct (commit_staged_some msg env st Hne) as (Ho & Hr & _).
  unfold view_commit, view_log. rewrite Hr. cbn [head commit_count find_commit map].
  cbn [commit_id message]. rewrite Z.eqb_refl. by repeat split.
Qed.

(** X18. save_commit ignores the staging list and never fails: it creates
    a commit whose snapshots are, in the order readdir gives them, the
    entries of the working directory whose name does not start with a dot
    and that can be opened (none at all for an empty directory), each with
    its name cut to 200 characters and its content cut to 49999; the
    staging list is left as it was. *)
Theorem view_commit_after_save_commit (msg : cstring) (env : environment)
    (st : program_state) :
  let r := save_commit msg env st in
  let id := wrap_int (commit_count (repo st) + 1) in
  let snapshot d_name :=
    match d_name with
    | c :: _ =>
        if bool_decide (c = "."%char) then None
        else
          (λ data, mkCommitFile (strncpy d_name MAX_FILENAME)
                                (strncpy data (MAX_FILE_CONTENT - 1)))
            <$> read_file env (strncpy (WORKING_DIR ++ c_str "/" ++ d_name) 511)
    | [] => None
    end in
  let snaps := omap snapshot (work_dir_entries env) in
  r.1 = CommitCreated id ∧
  view_commit id r.2 =
    Some (mkCommit id (strncpy msg 255) snaps (Z.of_nat (length snaps))) ∧
  index_head r.2 = index_head st.
Proof.
  intros r id snapshot snaps. subst r.
  destruct (save_commit_spec msg env st) as (Ho & Hr & Hi).
  unfold view_commit. rewrite Hr. cbn [head find_commit commit_id].
  rewrite Z.eqb_refl. by repeat split.
Qed.

Lemma commit_staged_loop_search env c st staged :
  search_engine (foldl (commit_staged_step env) (c, st) staged).2
  = search_engine st.
Proof.
  revert c st. induction staged as [|f staged IH]; intros c st; [done |].
  simpl foldl.
  change (commit_staged_step env (c, st) f)
    with (mkCommit (commit_id c) (message c)
            (files c ++ [staged_snapshot env f]) (file_count c + 1),
          index_file_for_search f env st).
  rewrite IH. by destruct (index_file_for_search_frame f env st) as [_ ->].
Qed.

Lemma index_commit_message_search msg id env st :
  search_engine (index_commit_message msg id env st) =
  add_document_to_search_engine_virtual
    (SearchResult
       (strncpy (c_str "Commit #" ++ c_str (pretty id)) (MAX_TITLE_LENGTH - 1))
       (strncpy msg MAX_DESCRIPTION_LENGTH)
       (c_str "commit-msg") 0 fzero 0 0 fzero)
    (search_engine st).
Proof.
  unfold index_commit_message. cbn [set_search_engine search_engine]. f_equal.
  apply (foldl_preserves (λ st', search_engine st' = search_engine st)); [|done].
  intros st' token <-. unfold index_commit_token. by destruct (map _ _).
Qed.

(** X19. The message of a commit becomes a document of the catalog:
    commit_staged, when something is staged, adds to the search engine one
    virtual document titled "Commit #id", with the message (cut to 255
    characters, then to the description buffer) as body and the tag
    "commit-msg", and adds or changes no other document; when the catalog
    is already full the message is not indexed there at all. *)
Theorem commit_message_document (msg : cstring) (env : environment)
    (st : program_state) :
  index_head st ≠ [] →
  let r := commit_staged msg env st in
  let id := wrap_int (commit_count (repo st) + 1) in
  let doc :=
    SearchResult
      (strncpy (c_str "Commit #" ++ c_str (pretty id)) (MAX_TITLE_LENGTH - 1))
      (strncpy (strncpy msg 255) MAX_DESCRIPTION_LENGTH)
      (c_str "commit-msg") 0 fzero 0 0 fzero in
  search_engine r.2 = add_document_to_search_engine_virtual doc (search_engine st) ∧
  (catalog_inv (search_engine st) →
   catalog (search_engine r.2) =
   if decide (g_document_count (search_engine st) < Z.of_nat MAX_DOCUMENTS)
   then catalog (search_engine st) ++ [doc]
   else catalog (search_engine st)).
Proof.
  intros Hne r id doc. subst r.
  assert (Hse : search_engine (commit_staged msg env st).2
                = add_document_to_search_engine_virtual doc (search_engine st)).
  { unfold commit_staged.
    destruct (index_head st) as [|f staged] eqn:Hst; [done |]. rewrite <-Hst.
    fold id. cbn [snd].
    destruct (commit_staged_loop env (mkCommit id (strncpy msg 255) [] 0) st
                (index_head st)) as [Hc _].
    rewrite Hc. cbn [fst message]. unfold set_index_head at 1.
    cbn [search_engine]. rewrite index_commit_message_search.
    unfold set_repo. cbn [search_engine].
    by rewrite commit_staged_loop_search. }
  split; [done |]. intros Hinv. rewrite Hse. case_decide as Hroom.
  - by apply catalog_add_virtual.
  - change (add_document_to_search_engine_virtual doc (search_engine st))
      with (run_catalog_add (search_engine st) (AddVirtualDocument doc)).
    rewrite run_catalog_add_full; [done | lia].
Qed.

End StoreRoundTrips.

Section LogProperties.
Context `{FloatOps} `{Qsort} `{Limits}.

Lemma find_commit_Some_in cid l c :
  find_commit cid l = Some c → c ∈ l ∧ commit_id c = cid.
Proof.
  induction l as [|c' l IH]; cbn [find_commit]; [done |].
  destruct (Z.eqb_spec (commit_id c') cid) as [Heq|Hne].
  - intros [= <-]. split; [apply elem_of_cons; by left | done].
  - intros [Hin ?]%IH. split; [apply elem_of_cons; by right | done].
Qed.

Lemma find_commit_NoDup l c :
  NoDup (map commit_id l) → c ∈ l → find_commit (commit_id c) l = Some c.
Proof.
  induction l as [|c' l IH]; cbn [find_commit map].
  - by intros _ ?%not_elem_of_nil.
  - intros [Hnot Hnd]%NoDup_cons [->|Hin]%elem_of_cons.
    + by rewrite Z.eqb_refl.
    + destruct (Z.eqb_spec (commit_id c') (commit_id c)) as [Heq|Hne];
        [|by apply IH].
      destruct Hnot. rewrite Heq. by apply list_elem_of_fmap_2.
Qed.

(** X20. In any state reached from an initialised repository, the log
    lists the commits newest first: the ids strictly decrease down the log
    and none exceeds the id counter; so every commit of the log is the one
    view_commit finds under its id. *)
Theorem log_newest_first (st0 : program_state) (ops : list store_op) :
  Z.of_nat (length ops) ≤ INT_MAX →
  let st := (run_ops (init_repository st0) ops).2 in
  StronglySorted (λ a b, b < a) (map fst (view_log st)) ∧
  Forall (λ id, id ≤ commit_count (repo st)) (map fst (view_log st)) ∧
  ∀ c, c ∈ head (repo st) → view_commit (commit_id c) st = Some c.
Proof.
  intros Hlen st.
  destruct (run_ops_ids (init_repository st0) ops (repo_inv_init st0))
    as ((_ & Hs & Hb) & _); [simpl; lia |].
  fold st in Hs, Hb. unfold commit_ids in Hs, Hb.
  unfold view_log. rewrite map_map. cbn [fst].
  split; [done |]. split; [done |].
  intros c Hc. apply find_commit_NoDup; [|done]. by apply sorted_ids_NoDup.
Qed.

(** X21. delete_commit reports that the commit is not found, and returns
    the state it was given, exactly when no commit of the list has the id;
    otherwise the list gets one commit shorter. In a state reached from an
    initialised repository a second deletion of the same id always reports
    not found. *)
Theorem delete_commit_twice (st0 : program_state) (ops : list store_op) (cid : Z) :
  Z.of_nat (length ops) ≤ INT_MAX →
  let st := (run_ops (init_repository st0) ops).2 in
  let r := delete_commit cid st in
  (r.1 = CommitNotFound ↔ cid ∉ map fst (view_log st)) ∧
  (r.1 = CommitNotFound → r.2 = st) ∧
  (r.1 = CommitDeleted cid →
   S (length (head (repo r.2))) = length (head (repo st))) ∧
  delete_commit cid r.2 = (CommitNotFound, r.2).
Proof.
  intros Hlen st r. subst r.
  destruct (run_ops_ids (init_repository st0) ops (repo_inv_init st0))
    as ((_ & Hs & _) & _); [simpl; lia |].
  fold st in Hs. apply sorted_ids_NoDup in Hs. unfold commit_ids in Hs.
  unfold view_log. rewrite map_map. cbn [fst].
  assert (Hd : delete_commit cid st =
    match unlink_commit cid (head (repo st)) with
    | None => (CommitNotFound, st)
    | Some l =>
        (CommitDeleted cid, set_repo (mkRepository l (commit_count (repo st))) st)
    end) by done.
  destruct (unlink_commit cid (head (repo st))) as [l|] eqn:Hu;
    rewrite Hd; cbn [fst snd].
  - split; [split; [done |] |].
    { intros Hnot. apply unlink_commit_None in Hnot. congruence. }
    split; [done |]. split.
    { intros _.
      destruct (unlink_commit_Some _ _ _ Hu) as (l1 & c & l2 & Hl1 & Hl & _).
      cbn [set_repo repo head]. rewrite Hl1, Hl, !length_app. simpl. lia. }
    pose proof (unlink_commit_filter _ _ _ Hs Hu) as ->.
    unfold delete_commit. cbn [set_repo repo head].
    assert (unlink_commit cid (filter (λ c, commit_id c ≠ cid) (head (repo st)))
            = None) as ->; [|done].
    apply unlink_commit_None. intros (c & Hc & Hin)%list_elem_of_fmap.
    apply list_elem_of_filter in Hin as [Hne _]. done.
  - split; [split; [by intros _; apply unlink_commit_None | done] |].
    split; [done |]. split; [done |].
    unfold delete_commit. by rewrite Hu.
Qed.

End LogProperties.

Section Checkout.
Context `{FloatOps} `{Qsort} `{Limits}.

(** [checkout_commit]: [None] when no commit has the id; otherwise the
    files written, in order, each with its path and what is printed into
    it. [can_write] tells the paths that [fopen (path, "w")] opens; a
    snapshot whose path cannot be opened is skipped. *)
Definition checkout_commit (cid : Z) (can_write : cstring → bool)
    (st : program_state) : option (list (cstring * cstring)) :=
  (λ c,
     omap (λ cf,
             let path :=
               strncpy (WORKING_DIR ++ c_str "/" ++ cf_filename cf) 511 in
             if can_write path then Some (path, cf_content cf) else None)
          (take (Z.to_nat (file_count c)) (files c)))
    <$> find_commit cid (head (repo st)).

(** X22. commit_staged followed by checkout_commit of the new id: when
    every path of the working directory can be written, the checkout
    writes one file per staged path, in the order of the staging list, to
    ".mgit_work/" followed by the basename of the staged path, holding the
    content the staged file had at commit time (cut to 49999 characters).
    checkout_commit of an id that is not in the log writes nothing. *)
Theorem checkout_after_commit_staged (msg : cstring) (env : environment)
    (st : program_state) :
  index_head st ≠ [] →
  Forall (λ f, is_Some (read_file env f)) (index_head st) →
  let r := commit_staged msg env st in
  let id := wrap_int (commit_count (repo st) + 1) in
  checkout_commit id (λ _, true) r.2 =
    Some (map (λ f,
                 (strncpy (WORKING_DIR ++ c_str "/"
                           ++ strncpy (basename f) (MAX_FILENAME - 1)) 511,
                  strncpy (default [] (read_file env f)) (MAX_FILE_CONTENT - 1)))
              (index_head st)) ∧
  ∀ cid can_write st',
    cid ∉ map fst (view_log st') → checkout_commit cid can_write st' = None.
Proof.
  intros Hne Hread r id. subst r. split.
  - destruct (commit_staged_some msg env st Hne) as (_ & Hr & _).
    unfold checkout_commit. rewrite Hr. cbn [head find_commit commit_id].
    fold id. rewrite Z.eqb_refl. cbn [fmap option_fmap option_map].
    cbn [file_count files]. f_equal.
    rewrite Nat2Z.id, take_ge by (by rewrite length_map).
    clear Hne Hr. induction Hread as [|f staged [data Hf] _ IH]; [done |].
    cbn [map]. rewrite omap_cons_eq, IH.
    unfold staged_snapshot. cbn [cf_filename cf_content].
    by rewrite Hf.
  - intros cid can_write st' Hnot. unfold checkout_commit.
    unfold view_log in Hnot. rewrite map_map in Hnot. cbn [fst] in Hnot.
    apply find_commit_None in Hnot. by rewrite Hnot.
Qed.

End Checkout.

Section IndexedWords.
Context `{FloatOps} `{Qsort} `{Limits}.

(** The words [index_file_for_search] reads in a file, line after line. *)
Definition file_words (data : cstring) : list cstring :=
  concat (map (λ line, line_words line []) (fgets_lines data [])).

(** The call of [add_autocomplete_suggestion] it makes for a word. *)
Definition word_insertion (t : Z) (word : cstring) : insertion :=
  Insertion word (f_lit 6 10) AC_SOURCE_DOCUMENT_TITLES t.

Lemma line_words_nonempty line word :
  Forall (λ w, w ≠ []) (line_words line word).
Proof.
  revert word. induction line as [|c line IH]; intros word; cbn [line_words].
  - destruct word; [constructor | by repeat constructor].
  - destruct (isalnum c || bool_decide (c = "_"%char)); [apply IH |].
    destruct word; [apply IH |]. constructor; [done | apply IH].
Qed.

Lemma index_word_ctx filename t st word :
  g_autocomplete_ctx (index_word filename t st word) =
  run_insertion (g_autocomplete_ctx st) (word_insertion t word).
Proof. unfold index_word. by destruct (filter _ word). Qed.

Lemma index_words_ctx filename t st words :
  g_autocomplete_ctx (foldl (index_word filename t) st words) =
  run_insertions (g_autocomplete_ctx st) (map (word_insertion t) words).
Proof.
  revert st. induction words as [|w words IH]; intros st; [done |].
  cbn [foldl map run_insertions]. rewrite IH. by rewrite index_word_ctx.
Qed.

(** Indexing a file is inserting its words, in order, with score 0.6. *)
Lemma index_file_for_search_ctx filename env st :
  g_autocomplete_ctx (index_file_for_search filename env st) =
  match read_file env filename with
  | None => g_autocomplete_ctx st
  | Some data =>
      run_insertions (g_autocomplete_ctx st)
                     (map (word_insertion (now env)) (file_words data))
  end.
Proof.
  unfold index_file_for_search, file_words.
  destruct (read_file env filename) as [data|]; [|done].
  generalize (fgets_lines data []). intros lines. revert st.
  induction lines as [|line lines IH]; intros st; [done |].
  cbn [foldl map concat]. rewrite IH, index_words_ctx, map_app.
  unfold run_insertions. by rewrite foldl_app.
Qed.

(** X23. Staging indexes at once: as soon as add_file has staged a file,
    and whether or not it is ever committed, every word of the file (a
    maximal run of letters, digits and underscores of a line, in lower
    case) has an entry in the autocomplete trie under its normalised form
    (the word without its underscores). *)
Theorem staged_words_are_stored (filename : cstring) (env : environment)
    (st : program_state) (data word : cstring) :
  trie_wf (root (g_autocomplete_ctx st)) →
  filename ≠ [] →
  read_file env (staged_path env filename) = Some data →
  word ∈ file_words data →
  (add_file filename env st).1 = FileAdded ∧
  is_Some (stored (root (g_autocomplete_ctx (add_file filename env st).2))
                  (normalize_suggestion word)).
Proof.
  intros Hwf Hname Hread Hword. unfold add_file.
  destruct filename as [|c filename]; [done |].
  change (if bool_decide (c = "/"%char) || bool_decide (c = "\"%char)
          then strncpy (c :: filename) (MAX_FILENAME - 1)
          else strncpy (cwd env ++ c_str "/" ++ c :: filename) (MAX_FILENAME - 1))
    with (staged_path env (c :: filename)).
  rewrite Hread. cbn [fst snd]. split; [done |].
  unfold set_search_engine. cbn [g_autocomplete_ctx].
  rewrite index_file_for_search_ctx, Hread.
  unfold set_index_head. cbn [g_autocomplete_ctx].
  assert (Hne : word ≠ []).
  { unfold file_words in Hword.
    apply list_elem_of_In, in_concat in Hword as (ws & Hws & Hin).
    apply in_map_iff in Hws as (line & <- & _).
    pose proof (line_words_nonempty line []) as Hall.
    rewrite Forall_forall in Hall. by apply Hall, list_elem_of_In. }
  apply list_elem_of_split in Hword as (ws1 & ws2 & ->).
  rewrite map_app. cbn [map]. unfold run_insertions.
  rewrite foldl_app. cbn [foldl].
  fold (run_insertions (g_autocomplete_ctx st) (map (word_insertion (now env)) ws1)).
  pose proof (run_insertions_wf (g_autocomplete_ctx st)
                (map (word_insertion (now env)) ws1) Hwf) as Hwf1.
  apply run_insertions_stored_is_Some; [by apply run_insertion_wf |].
  destruct (run_insertion_stored_same _ (word_insertion (now env) word) Hwf1 Hne)
    as (r & Hr & _).
  cbn [word_insertion ins_text] in Hr. by rewrite Hr.
Qed.

End IndexedWords.

(** * Instances of the further properties *)

Section ConcreteExtras.
#[local] Existing Instance Q_float.
#[local] Existing Instance Q_float_laws.
#[local] Existing Instance stable_qsort.
#[local] Existing Instance sample_limits.

Lemma suggestions_sorted_by_score_witness :
  StronglySorted (λ a b, fleb (res_score b) (res_score a) = true)
    (get_autocomplete_suggestions (c_str "a") 10
       (run_insertions init_autocomplete_system two_suggestions)).
Proof.
  exact (suggestions_sorted_by_score (c_str "a") 10
           (run_insertions init_autocomplete_system two_suggestions)).
Defined.

(** After the insertion of "don't", the query "don't" finds nothing and
    the query "dont" finds it. *)
Example suggest_with_apostrophe :
  suggest [titled "don't" (9 # 10)] "don't" 10 = [] ∧
  suggest [titled "don't" (9 # 10)] "dont" 10 = [("don't"%string, 9 # 10)].
Proof. split; by vm_compute. Qed.

Lemma suggestions_reject_punctuation_witness :
  Exists (λ c, isalnum c = false) (strncpy (c_str "don't") (MAX_QUERY_LENGTH - 1)) ∧
  get_autocomplete_suggestions (c_str "don't") 10
    (run_insertions init_autocomplete_system [titled "don't" (9 # 10)]) = [].
Proof.
  assert (Hex : Exists (λ c, isalnum c = false)
                  (strncpy (c_str "don't") (MAX_QUERY_LENGTH - 1))).
  { apply Exists_exists. exists "'"%char. split; [|reflexivity].
    apply (bool_decide_unpack _). by vm_compute. }
  split; [exact Hex |].
  exact (suggestions_reject_punctuation [titled "don't" (9 # 10)]
           (c_str "don't") 10 Hex).
Defined.

Lemma suggestions_match_query_witness :
  let r := AutocompleteResult (c_str "ab") (9 # 10) 1 0 false in
  r ∈ get_autocomplete_suggestions (c_str "A") 10
        (run_insertions init_autocomplete_system two_suggestions) ∧
  ∃ ins, ins ∈ two_suggestions ∧
         res_suggestion r = strncpy (ins_text ins) (MAX_SUGGESTION_LENGTH - 1) ∧
         normalized_query (c_str "A") `prefix_of` normalize_suggestion (ins_text ins).
Proof.
  intros r.
  assert (Hin : r ∈ get_autocomplete_suggestions (c_str "A") 10
                      (run_insertions init_autocomplete_system two_suggestions)).
  { apply list_elem_of_In. vm_compute. left. reflexivity. }
  split; [exact Hin |].
  exact (suggestions_match_query two_suggestions (c_str "A") 10 r Hin).
Defined.

Definition hello_twice : list insertion :=
  [titled "Hello" (9 # 10); titled "aa" (5 # 10)].

(** "Hello" and "HELLO!" are filed under "hello": the second text, the
    default score and a frequency of 2 are what is stored. *)
Lemma stored_entry_of_last_insertion_witness :
  let ins := titled "HELLO!" 0 in
  let after := [titled "car" 0] in
  let key := normalize_suggestion (ins_text ins) in
  let l := hello_twice ++ ins :: after in
  ins_text ins ≠ [] ∧
  Forall (λ later, normalize_suggestion (ins_text later) ≠ key) after ∧
  Z.of_nat (length (filter (files_under key) l)) ≤ INT_MAX ∧
  stored (root (run_insertions init_autocomplete_system l)) key =
  Some (AutocompleteResult
          (strncpy (ins_text ins) (MAX_SUGGESTION_LENGTH - 1))
          (final_score ins)
          (Z.of_nat (length (filter (files_under key) l)))
          (ins_time ins) false).
Proof.
  intros ins after key l.
  assert (Htext : ins_text ins ≠ []) by discriminate.
  assert (Hafter : Forall (λ later, normalize_suggestion (ins_text later) ≠ key)
                          after).
  { repeat constructor. vm_compute. discriminate. }
  assert (Hn : Z.of_nat (length (filter (files_under key) l)) ≤ INT_MAX).
  { vm_compute. discriminate. }
  split; [exact Htext |]. split; [exact Hafter |]. split; [exact Hn |].
  exact (stored_entry_of_last_insertion hello_twice after ins Htext Hafter Hn).
Defined.

Example stored_hello :
  suggest (hello_twice ++ [titled "HELLO!" 0; titled "car" 0]) "hel" 10
  = [("HELLO!"%string, 3 # 5)].
Proof. by vm_compute. Qed.

Lemma total_suggestions_counts_accepted_calls_witness :
  let l := hello_twice ++ [titled "" 0; titled "aa" 0] in
  Z.of_nat (length (filter (λ ins, ins_text ins ≠ []) l)) ≤ INT_MAX ∧
  total_suggestions (run_insertions init_autocomplete_system l) = 3.
Proof.
  intros l.
  assert (Hn : Z.of_nat (length (filter (λ ins, ins_text ins ≠ []) l)) ≤ INT_MAX).
  { vm_compute. discriminate. }
  split; [exact Hn |].
  exact (proj1 (total_suggestions_counts_accepted_calls l Hn)).
Defined.

Definition two_adds : list catalog_add :=
  [AddDocument (c_str "notes.txt") (Some (c_str "alpha beta alpha")) 7;
   AddVirtualDocument doc_todo].

Lemma catalog_keeps_first_adds_witness :
  length (g_documents search_engine_start) = MAX_DOCUMENTS ∧
  catalog (foldl run_catalog_add (init_search_engine search_engine_start) two_adds)
  = take MAX_DOCUMENTS (imap document_of_add two_adds).
Proof.
  assert (Hlen : length (g_documents search_engine_start) = MAX_DOCUMENTS)
    by reflexivity.
  split; [exact Hlen |].
  exact (proj1 (catalog_keeps_first_adds search_engine_start two_adds Hlen)).
Defined.

(** The first line that holds the query, whatever the case. *)
Example extract_second_line :
  extract_matching_line (Some (c_str "first line
Second LINE here
third line")) (c_str "line H") 64
  = (c_str "Line 2: Second LINE here
", 2).
Proof. by vm_compute. Qed.

Example extract_nothing :
  extract_matching_line (Some (c_str "first")) (c_str "zzz") 64
  = (c_str "(No matching line found)", -1).
Proof. by vm_compute. Qed.

Example basename_examples :
  basename (c_str "/repo/src/main.c") = c_str "main.c" ∧
  basename (c_str "main.c") = c_str "main.c" ∧
  basename (c_str "/repo/src/") = [].
Proof. by vm_compute. Qed.

(** The state after staging f1.txt and f2.txt. *)
Definition two_staged : program_state :=
  (run_ops program_start
     [Stage (c_str "f1.txt") sample_env; Stage (c_str "f2.txt") sample_env]).2.

Lemma view_commit_after_commit_staged_witness :
  index_head two_staged ≠ [] ∧
  (commit_staged (c_str "initial import") sample_env two_staged).1
  = CommitCreated (wrap_int (commit_count (repo two_staged) + 1)).
Proof.
  assert (Hne : index_head two_staged ≠ []) by (vm_compute; discriminate).
  split; [exact Hne |].
  exact (proj1 (view_commit_after_commit_staged (c_str "initial import")
                  sample_env two_staged Hne)).
Defined.

Lemma commit_message_document_witness :
  let id := wrap_int (commit_count (repo two_staged) + 1) in
  let doc :=
    SearchResult
      (strncpy (c_str "Commit #" ++ c_str (pretty id)) (MAX_TITLE_LENGTH - 1))
      (strncpy (strncpy (c_str "initial import") 255) MAX_DESCRIPTION_LENGTH)
      (c_str "commit-msg") 0 fzero 0 0 fzero in
  index_head two_staged ≠ [] ∧
  search_engine (commit_staged (c_str "initial import") sample_env two_staged).2
  = add_document_to_search_engine_virtual doc (search_engine two_staged).
Proof.
  intros id doc.
  assert (Hne : index_head two_staged ≠ []) by (vm_compute; discriminate).
  split; [exact Hne |].
  exact (proj1 (commit_message_document (c_str "initial import")
                  sample_env two_staged Hne)).
Defined.

Lemma log_newest_first_witness :
  Z.of_nat (length sample_ops) ≤ INT_MAX ∧
  StronglySorted (λ a b, b < a)
    (map fst (view_log (run_ops (init_repository program_start) sample_ops).2)).
Proof.
  assert (Hlen : Z.of_nat (length sample_ops) ≤ INT_MAX)
    by (vm_compute; discriminate).
  split; [exact Hlen |].
  exact (proj1 (log_newest_first program_start sample_ops Hlen)).
Defined.

Lemma delete_commit_twice_witness :
  let st := (run_ops (init_repository program_start) sample_ops).2 in
  Z.of_nat (length sample_ops) ≤ INT_MAX ∧
  delete_commit 2 (delete_commit 2 st).2
  = (CommitNotFound, (delete_commit 2 st).2).
Proof.
  intros st.
  assert (Hlen : Z.of_nat (length sample_ops) ≤ INT_MAX)
    by (vm_compute; discriminate).
  split; [exact Hlen |].
  exact (proj2 (proj2 (proj2 (delete_commit_twice program_start sample_ops 2 Hlen)))).
Defined.

Lemma checkout_after_commit_staged_witness :
  let id := wrap_int (commit_count (repo two_staged) + 1) in
  index_head two_staged ≠ [] ∧
  Forall (λ f, is_Some (read_file sample_env f)) (index_head two_staged) ∧
  checkout_commit id (λ _, true)
    (commit_staged (c_str "initial import") sample_env two_staged).2
  = Some (map (λ f,
                 (strncpy (WORKING_DIR ++ c_str "/"
                           ++ strncpy (basename f) (MAX_FILENAME - 1)) 511,
                  strncpy (default [] (read_file sample_env f))
                          (MAX_FILE_CONTENT - 1)))
              (index_head two_staged)).
Proof.
  intros id.
  assert (Hne : index_head two_staged ≠ []) by (vm_compute; discriminate).
  assert (Hread : Forall (λ f, is_Some (read_file sample_env f))
                         (index_head two_staged)).
  { apply Forall_forall. intros f Hf.
    assert (Hidx : index_head two_staged
                   = [c_str "/repo/f2.txt"; c_str "/repo/f1.txt"])
      by (by vm_compute).
    rewrite Hidx in Hf.
    apply elem_of_cons in Hf as [->|Hf]; [by eexists |].
    apply list_elem_of_singleton in Hf as ->. by eexists. }
  split; [exact Hne |]. split; [exact Hread |].
  exact (proj1 (checkout_after_commit_staged (c_str "initial import")
                  sample_env two_staged Hne Hread)).
Defined.

(** Scenario 5: the files the checkout of commit 1 writes. *)
Example checkout_writes :
  checkout_commit 1 (λ _, true)
    (commit_staged (c_str "initial import") sample_env two_staged).2
  = Some [(c_str ".mgit_work/f2.txt", c_str "gamma");
          (c_str ".mgit_work/f1.txt", c_str "alpha beta")].
Proof. by vm_compute. Qed.

Lemma staged_words_are_stored_witness :
  trie_wf (root (g_autocomplete_ctx program_start)) ∧
  c_str "f1.txt" ≠ [] ∧
  read_file sample_env (staged_path sample_env (c_str "f1.txt"))
    = Some (c_str "alpha beta") ∧
  c_str "beta" ∈ file_words (c_str "alpha beta") ∧
  is_Some (stored (root (g_autocomplete_ctx
                           (add_file (c_str "f1.txt") sample_env program_start).2))
                  (normalize_suggestion (c_str "beta"))).
Proof.
  assert (Hwf : trie_wf (root (g_autocomplete_ctx program_start)))
    by apply trie_wf_create.
  assert (Hname : c_str "f1.txt" ≠ []) by discriminate.
  assert (Hread : read_file sample_env (staged_path sample_env (c_str "f1.txt"))
                  = Some (c_str "alpha beta")) by reflexivity.
  assert (Hword : c_str "beta" ∈ file_words (c_str "alpha beta")).
  { apply (bool_decide_unpack _). by vm_compute. }
  split; [exact Hwf |]. split; [exact Hname |]. split; [exact Hread |].
  split; [exact Hword |].
  exact (proj2 (staged_words_are_stored (c_str "f1.txt") sample_env
                  program_start (c_str "alpha beta") (c_str "beta")
                  Hwf Hname Hread Hword)).
Defined.

End ConcreteExtras.

Section MessageWords.
Context `{FloatOps} `{Qsort} `{Limits}.

(** What [index_commit_message] keeps of a token of the message: its
    letters and digits, in lower case. *)
Definition clean_token (token : cstring) : cstring :=
  map tolower (filter (λ c, isalnum c = true) token).

Definition token_insertion (t : Z) (token : cstring) : insertion :=
  Insertion (clean_token token) (f_lit 7 10) AC_SOURCE_DOCUMENT_TITLES t.

Lemma isalnum_tolower c : isalnum (tolower c) = isalnum c.
Proof. by destruct c as [[] [] [] [] [] [] [] []]. Qed.

Lemma normalize_clean_token token :
  normalize_suggestion (clean_token token) = clean_token token.
Proof.
  unfold clean_token. induction token as [|c token IH]; [done |].
  destruct (isalnum c) eqn:Hc.
  - rewrite filter_cons_True by done. cbn [map].
    rewrite normalize_suggestion_cons, tolower_idemp, isalnum_tolower, Hc.
    by rewrite IH.
  - rewrite filter_cons_False; [done | by rewrite Hc].
Qed.

Lemma index_commit_token_ctx t st token :
  g_autocomplete_ctx (index_commit_token t st token) =
  run_insertion (g_autocomplete_ctx st) (token_insertion t token).
Proof.
  unfold index_commit_token. fold (clean_token token).
  unfold run_insertion, token_insertion. cbn [ins_text ins_score ins_source ins_time].
  by destruct (clean_token token).
Qed.

Lemma index_commit_message_ctx msg id env st :
  g_autocomplete_ctx (index_commit_message msg id env st) =
  run_insertions (g_autocomplete_ctx st)
    (map (token_insertion (now env)) (strtok_spaces (strncpy msg 511) [])).
Proof.
  unfold index_commit_message. cbn [set_search_engine g_autocomplete_ctx].
  generalize (strtok_spaces (strncpy msg 511) []). intros tokens. revert st.
  induction tokens as [|token tokens IH]; intros st; [done |].
  cbn [foldl map run_insertions]. rewrite IH. by rewrite index_commit_token_ctx.
Qed.

Lemma index_file_for_search_wf filename env st :
  trie_wf (root (g_autocomplete_ctx st)) →
  trie_wf (root (g_autocomplete_ctx (index_file_for_search filename env st))).
Proof.
  intros Hwf. rewrite index_file_for_search_ctx.
  destruct (read_file env filename); [by apply run_insertions_wf | done].
Qed.

Lemma commit_staged_loop_wf env c st staged :
  trie_wf (root (g_autocomplete_ctx st)) →
  trie_wf (root (g_autocomplete_ctx
                   (foldl (commit_staged_step env) (c, st) staged).2)).
Proof.
  revert c st. induction staged as [|f staged IH]; intros c st Hwf; [done |].
  simpl foldl.
  change (commit_staged_step env (c, st) f)
    with (mkCommit (commit_id c) (message c)
            (files c ++ [staged_snapshot env f]) (file_count c + 1),
          index_file_for_search f env st).
  by apply IH, index_file_for_search_wf.
Qed.

(** X24. The words of a commit message become suggestions: after a
    commit_staged that creates a commit, every space-separated token of the
    message (within its first 255 characters) that holds a letter or a
    digit has an entry in the autocomplete trie under its letters and
    digits in lower case. *)
Theorem commit_message_words_are_stored (msg : cstring) (env : environment)
    (st : program_state) (token : cstring) :
  trie_wf (root (g_autocomplete_ctx st)) →
  index_head st ≠ [] →
  token ∈ strtok_spaces (strncpy (strncpy msg 255) 511) [] →
  clean_token token ≠ [] →
  is_Some (stored (root (g_autocomplete_ctx (commit_staged msg env st).2))
                  (clean_token token)).
Proof.
  intros Hwf Hne Htoken Hclean. unfold commit_staged.
  destruct (index_head st) as [|f staged] eqn:Hst; [done |]. rewrite <-Hst.
  cbn [snd]. unfold set_index_head at 1. cbn [g_autocomplete_ctx].
  set (id := wrap_int (commit_count (repo st) + 1)).
  destruct (commit_staged_loop env (mkCommit id (strncpy msg 255) [] 0) st
              (index_head st)) as [Hc _].
  rewrite Hc. cbn [fst message].
  rewrite index_commit_message_ctx. unfold set_repo. cbn [g_autocomplete_ctx].
  pose proof (commit_staged_loop_wf env (mkCommit id (strncpy msg 255) [] 0) st
                (index_head st) Hwf) as Hwf1.
  revert Hwf1. generalize (g_autocomplete_ctx
    (foldl (commit_staged_step env)
       (mkCommit id (strncpy msg 255) [] 0, st) (index_head st)).2).
  intros ctx Hwf1.
  apply list_elem_of_split in Htoken as (ts1 & ts2 & ->).
  rewrite map_app. cbn [map]. unfold run_insertions.
  rewrite foldl_app. cbn [foldl].
  fold (run_insertions ctx (map (token_insertion (now env)) ts1)).
  pose proof (run_insertions_wf ctx (map (token_insertion (now env)) ts1) Hwf1)
    as Hwf2.
  apply run_insertions_stored_is_Some; [by apply run_insertion_wf |].
  destruct (run_insertion_stored_same _ (token_insertion (now env) token)
              Hwf2 Hclean) as (r & Hr & _).
  cbn [token_insertion ins_text] in Hr.
  rewrite normalize_clean_token in Hr. by rewrite Hr.
Qed.

End MessageWords.

Section QueryCase.
Context `{FloatOps} `{Qsort} `{Limits}.

Lemma query_tokens_lower query :
  query_tokens (map tolower query) = query_tokens query.
Proof.
  unfold query_tokens, to_lower_inplace, strncpy. do 2 f_equal.
  rewrite <-fmap_take, <-list_fmap_compose.
  apply list_fmap_ext. intros _ c _. apply tolower_idemp.
Qed.

(** X25. search_and_rank reads the query without regard to case: a query
    and its lower-case form give the same results, with the same relevance
    values. *)
Theorem search_ignores_query_case
    (query : cstring) (max_results t0 t1 : Z) (st : search_engine_t) :
  (search_and_rank (map tolower query) max_results t0 t1 st).1 =
  (search_and_rank query max_results t0 t1 st).1.
Proof.
  unfold search_and_rank.
  destruct (max_results <=? 0); [done |].
  destruct (negb (g_search_engine_initialized st)); [done |].
  destruct (g_document_count st =? 0); [done |].
  cbn [fst]. unfold scored_documents. by rewrite query_tokens_lower.
Qed.

(** X26. The cap comes before the sort: when the query leads to a node,
    the suggestions returned are, up to the order qsort gives them, the
    first max_suggestions end-of-word nodes that the traversal below this
    node meets (the node itself, then its children by increasing character
    code), and not the best-scored ones. *)
Theorem suggestions_are_first_met
    (query : cstring) (max : Z) (ctx : autocomplete_context_t)
    (node : trie_node_t) :
  walk_prefix (root ctx) (normalized_query query) = Some node →
  collect_suggestions_from_trie node max []
    = take (Z.to_nat max) (all_suggestions node) ∧
  get_autocomplete_suggestions query max ctx
    ≡ₚ take (Z.to_nat max) (all_suggestions node).
Proof.
  intros Hwalk.
  assert (Hcollect : collect_suggestions_from_trie node max []
                     = take (Z.to_nat max) (all_suggestions node)).
  { rewrite collect_suggestions_from_trie_take. cbn [app length].
    by rewrite Nat.sub_0_r. }
  split; [done |]. unfold get_autocomplete_suggestions.
  unfold normalized_query in Hwalk. rewrite Hwalk, Hcollect. apply qsort_perm.
Qed.

End QueryCase.
